(** * velox/exec: AddressableNonNullValueList and DistinctAggregations

    A shallow embedding of [velox/exec/AddressableNonNullValueList.cpp] and
    [velox/exec/DistinctAggregations.cpp], with the properties of the
    positioned value store and of the distinct-aggregation wrapper. *)

From Stdlib Require Import ZArith NArith Lia.
From Stdlib.Strings Require Import Byte.
From stdpp Require Import base option list strings gmap.

Set Warnings "-register-all".

(** ** Little-endian machine words as byte lists *)

Module Bytes.

Local Open Scope N_scope.

(** The low eight bits of [n] as a byte. *)
Definition byte_of_N (n : N) : byte :=
  default x00 (Byte.of_N (n mod 256)).

(** [le_encode w n]: the [w] low-order bytes of [n], least significant
    first (the in-memory image of a [w]-byte unsigned integer). *)
Fixpoint le_encode (w : nat) (n : N) : list byte :=
  match w with
  | O => []
  | S w' => byte_of_N n :: le_encode w' (n / 256)
  end.

Fixpoint le_decode (bs : list byte) : N :=
  match bs with
  | [] => 0
  | b :: bs' => Byte.to_N b + 256 * le_decode bs'
  end.

(** [sizeof(uint64_t)] *)
Definition sizeof_uint64 : nat := 8.

Definition uint64_max : N := 2 ^ 64.

End Bytes.

(** ** The pool-backed allocator and its byte cursors

    [HashStringAllocator], [ByteOutputStream] and [ByteInputStream] are
    collaborators of the two translation units; their sources are not part
    of them, and what the value list needs of them is modelled here. *)

Module HashStringAllocator.

Import Bytes.

(** Modelled from the spec: one pool-allocated block of a chunk chain (the
    allocator's chunk management is missing). [data] holds the bytes written
    into the block so far, [capacity] the bytes the block can hold. *)
Record Block := { capacity : nat; data : list byte }.

(** Modelled from the spec: a "forward-growing chain of pool-allocated
    blocks". *)
Abbreviation Chain := (list Block).

(** Modelled from the spec: the reference to an owning chunk header, here
    the chain and the index of the block in it. *)
Record Header := { chainOf : nat; blockOf : nat }.

(** Modelled from the spec: "opaque handle = (reference to an owning chunk
    header, byte offset within that chunk)". [offset] stands for
    [position.position - header->begin()]. *)
Record Position := { header : Header; offset : nat }.

(** Modelled from the spec: the allocator owns the chains handed out by
    [newWrite]; [increment] is the capacity it gives a continuation block
    ("subsequent growth requests additional capacity in bounded
    increments"). *)
Record t := { chains : list Chain; increment : nat }.

(** Modelled from the spec: the growable byte stream of [newWrite] /
    [extendWrite] / [finishWrite]. The bytes appended since the write began
    are committed to the chain by [finishWrite]. *)
Record ByteOutputStream := { start : Position; written : list byte }.

(** Modelled from the spec: [stream->appendOne(uint64_t)] appends the eight
    bytes of the value. *)
Definition appendOne (value : N) (s : ByteOutputStream) : ByteOutputStream :=
  {| start := start s; written := written s ++ le_encode sizeof_uint64 value |}.

(** Modelled from the spec: [stream->append(folly::Range<const
    char*>(buffer, size))] appends the bytes of the range. *)
Definition append (buffer : list byte) (s : ByteOutputStream) : ByteOutputStream :=
  {| start := start s; written := written s ++ buffer |}.

(** Modelled from the spec: [newWrite] opens a new chain whose first block
    has the requested size and returns the position of its first byte. *)
Definition newWrite (a : t) (preferredSize : nat) : Position * ByteOutputStream * t :=
  let pos := {| header := {| chainOf := length (chains a); blockOf := 0 |}; offset := 0 |} in
  (pos,
   {| start := pos; written := [] |},
   {| chains := chains a ++ [[ {| capacity := preferredSize; data := [] |} ]];
      increment := increment a |}).

(** Modelled from the spec: [extendWrite] continues the chain at the given
    position. *)
Definition extendWrite (a : t) (pos : Position) : ByteOutputStream :=
  {| start := pos; written := [] |}.

(** Modelled from the spec: "Growth reuses any leftover capacity of the most
    recent block before allocating a new one": one byte goes to the last
    block of the chain when it has room, to a new block otherwise. *)
Fixpoint putByte (incr : nat) (c : Chain) (b : byte) : Chain :=
  match c with
  | [] => [ {| capacity := Nat.max 1 incr; data := [b] |} ]
  | blk :: rest =>
      match rest with
      | [] =>
          if decide (length (data blk) < capacity blk)%nat
          then [ {| capacity := capacity blk; data := data blk ++ [b] |} ]
          else [ blk; {| capacity := Nat.max 1 incr; data := [b] |} ]
      | _ :: _ => blk :: putByte incr rest b
      end
  end.

Definition putBytes (incr : nat) (c : Chain) (bs : list byte) : Chain :=
  foldl (putByte incr) c bs.

(** Modelled from the spec: a write that continues at [(blockIdx, off)]
    keeps what the chain holds before that point. *)
Definition truncate (c : Chain) (blockIdx off : nat) : option Chain :=
  blk ← c !! blockIdx;
  if decide (off ≤ length (data blk))%nat
  then Some (take blockIdx c ++ [ {| capacity := capacity blk; data := take off (data blk) |} ])
  else None.

(** Modelled from the spec: the unused tail of the last block beyond
    [numReserveBytes] is given back to the pool. *)
Fixpoint trimLast (numReserveBytes : nat) (c : Chain) : Chain :=
  match c with
  | [] => []
  | blk :: rest =>
      match rest with
      | [] => [ {| capacity := Nat.min (capacity blk) (length (data blk) + numReserveBytes);
                   data := data blk |} ]
      | _ :: _ => blk :: trimLast numReserveBytes rest
      end
  end.

(** The position after the last byte of a chain. *)
Definition endOf (chainId : nat) (c : Chain) : Position :=
  {| header := {| chainOf := chainId; blockOf := pred (length c) |};
     offset := from_option (λ blk, length (data blk)) 0%nat (last c) |}.

(** Modelled from the spec: [finishWrite] commits the stream and returns the
    positions of the first byte written and of the end of the write. *)
Definition finishWrite (a : t) (s : ByteOutputStream) (numReserveBytes : nat)
  : option ((Position * Position) * t) :=
  let h := header (start s) in
  c ← chains a !! chainOf h;
  c0 ← truncate c (blockOf h) (offset (start s));
  let c' := trimLast numReserveBytes (putBytes (increment a) c0 (written s)) in
  Some ((start s, endOf (chainOf h) c'),
        {| chains := <[chainOf h := c']> (chains a); increment := increment a |}).

(** [pos] is the end of its chain, the place where the next write to the
    chain continues. *)
Definition atEnd (a : t) (pos : Position) : Prop :=
  ∃ c, chains a !! chainOf (header pos) = Some c ∧ c ≠ [] ∧
       pos = endOf (chainOf (header pos)) c.

(** Modelled from the spec: the random-access cursor into a chunk chain. *)
Record ByteInputStream := { bytes : list byte; cursor : nat }.

(** The bytes of a chain from block [blockIdx] on. *)
Definition streamFrom (blockIdx : nat) (c : Chain) : list byte :=
  concat (data <$> drop blockIdx c).

(** Modelled from the spec: [prepareRead] "yields a random-access cursor
    into a chunk chain given a chunk reference". *)
Definition prepareRead (a : t) (h : Header) : option ByteInputStream :=
  c ← chains a !! chainOf h;
  if decide (blockOf h < length c)%nat
  then Some {| bytes := streamFrom (blockOf h) c; cursor := 0 |}
  else None.

(** Modelled from the spec: [stream.seekp(pos)] puts the cursor at the byte
    [pos] of the stream. *)
Definition seekp (pos : nat) (s : ByteInputStream) : ByteInputStream :=
  {| bytes := bytes s; cursor := pos |}.

(** Modelled from the spec: [stream.skip(n)] moves the cursor [n] bytes
    on. *)
Definition skip (n : nat) (s : ByteInputStream) : ByteInputStream :=
  {| bytes := bytes s; cursor := cursor s + n |}.

(** Modelled from the spec: [stream.size()], the number of bytes of the
    stream. The cursor of the model ends with the last byte written to the
    chain; the allocator's own may reach further, over the rest of the last
    block that is reserved and not yet written. *)
Definition size (s : ByteInputStream) : nat := length (bytes s).

(** What is left to read from the cursor on. *)
Definition remaining (s : ByteInputStream) : list byte := drop (cursor s) (bytes s).

(** Modelled from the spec: [stream.readBytes(buffer, n)] reads [n] bytes
    at the cursor; there is no reading past the end of the stream. *)
Definition readBytes (n : nat) (s : ByteInputStream) : option (list byte) :=
  if decide (cursor s + n ≤ length (bytes s))%nat
  then Some (take n (remaining s))
  else None.

(** Modelled from the spec: [stream.read<uint64_t>()] reads eight bytes
    at the cursor as an unsigned integer. *)
Definition read_uint64 (s : ByteInputStream) : option N :=
  le_decode <$> readBytes sizeof_uint64 s.

End HashStringAllocator.

(** ** Outcomes of checked operations *)

(** Modelled from the spec: a [VELOX_CHECK] that fails, or a
    [VELOX_UNREACHABLE] that is reached, "raises a fatal, query-aborting
    condition". *)
Inductive Checked (A : Type) : Type :=
| Ok (a : A)
| VeloxRuntimeError.
Arguments Ok {A} a.
Arguments VeloxRuntimeError {A}.

(** A loop over the elements of [l], in order, whose body may fail. *)
Fixpoint forEach {S A : Type} (body : S → A → option S) (s : S) (l : list A) : option S :=
  match l with
  | [] => Some s
  | x :: l' => s' ← body s x; forEach body s' l'
  end.

(** ** Typed values and their codec *)

Module ContainerRowSerde.

(** Modelled from the spec: the flags of a comparison, as far as [equalTo]
    sets them: a comparison for equality, with the way it takes nulls. *)
Inductive NullHandlingMode := kNullAsValue | kNullAsIndeterminate.

Record CompareFlags := {
  equalsOnly : bool;
  nullHandlingMode : NullHandlingMode }.

(** Modelled from the spec: [CompareFlags::equality(mode)]. *)
Definition equality (mode : NullHandlingMode) : CompareFlags :=
  {| equalsOnly := true; nullHandlingMode := mode |}.

(** The interface of the typed value codec and of the vector's hash, as
    the value list uses it: [BaseVector::hashValueAt],
    [ContainerRowSerde::serialize], [deserialize] and [compare]. The two
    readers work on what is left of a cursor. *)
Class ValueCodec (Value VType : Type) := {
  hashValueAt : Value → N;
  serialize : Value → list byte;
  deserialize : list byte → option Value;
  compare : list byte → list byte → VType → CompareFlags → Z }.

End ContainerRowSerde.

(** Modelled from the spec: [DecodedVector], a base vector and the mapping
    of the rows into it. *)
Record DecodedVector (BaseVector : Type) := {
  base : BaseVector;
  indices : list nat }.
Arguments base {BaseVector} d.
Arguments indices {BaseVector} d.

(** Modelled from the spec: [decoded.index(i)]. *)
Definition DecodedVector_index {BaseVector} (d : DecodedVector BaseVector) (i : nat)
  : option nat :=
  indices d !! i.

(** ** AddressableNonNullValueList.cpp *)

Module AddressableNonNullValueList.

Import Bytes ContainerRowSerde.
Module HSA := HashStringAllocator.

(** The members of the list: [firstHeader_] (null until the first write),
    [currentPosition_] and [size_]. *)
Record t := {
  firstHeader_ : option HSA.Header;
  currentPosition_ : HSA.Position;
  size_ : nat }.

(** A newly constructed list. *)
Definition empty : t :=
  {| firstHeader_ := None;
     currentPosition_ := {| HSA.header := {| HSA.chainOf := 0; HSA.blockOf := 0 |}; HSA.offset := 0 |};
     size_ := 0 |}.

(** [kInitialSize] of [makeOutputStream] *)
Definition kInitialSize : nat := 44.

(** [static_cast<int32_t>(n)] *)
Definition to_int32 (n : Z) : Z := ((n + 2 ^ 31) mod 2 ^ 32 - 2 ^ 31)%Z.

(** [AddressableNonNullValueList::makeOutputStream] *)
Definition makeOutputStream (l : t) (allocator : HSA.t) : HSA.ByteOutputStream * t * HSA.t :=
  match firstHeader_ l with
  | None =>
      let '(pos, stream, allocator') := HSA.newWrite allocator kInitialSize in
      (stream,
       {| firstHeader_ := Some (HSA.header pos); currentPosition_ := pos; size_ := size_ l |},
       allocator')
  | Some _ => (HSA.extendWrite allocator (currentPosition_ l), l, allocator)
  end.

(** [AddressableNonNullValueList::finishWrite] *)
Definition finishWrite (l : t) (allocator : HSA.t) (stream : HSA.ByteOutputStream)
  : option (HSA.Position * t * HSA.t) :=
  let size' := S (size_ l) in
  '(startAndFinish, allocator') ← HSA.finishWrite allocator stream 1024;
  Some (startAndFinish.1,
        {| firstHeader_ := firstHeader_ l; currentPosition_ := startAndFinish.2; size_ := size' |},
        allocator').

(** [AddressableNonNullValueList::appendSerialized] *)
Definition appendSerialized (l : t) (allocator : HSA.t) (buffer : list byte)
  : option (HSA.Position * t * HSA.t) :=
  let '(stream, l1, allocator1) := makeOutputStream l allocator in
  let stream := HSA.append buffer stream in
  finishWrite l1 allocator1 stream.

(** [prepareRead(position, skipHash)]; a negative [seek] is not a place of
    the stream. *)
Definition prepareRead (allocator : HSA.t) (position : HSA.Position) (skipHash : bool)
  : option HSA.ByteInputStream :=
  let header := HSA.header position in
  let seek := to_int32 (Z.of_nat (HSA.offset position)) in
  stream ← HSA.prepareRead allocator header;
  if decide (seek < 0)%Z then None else
  let stream := HSA.seekp (Z.to_nat seek) stream in
  Some (if skipHash then HSA.skip sizeof_uint64 stream else stream).

(** [AddressableNonNullValueList::readHash] *)
Definition readHash (allocator : HSA.t) (position : HSA.Position) : option N :=
  stream ← prepareRead allocator position false;
  HSA.read_uint64 stream.

(** [AddressableNonNullValueList::getSerializedSize] *)
Definition getSerializedSize (allocator : HSA.t) (position : HSA.Position) : option nat :=
  HSA.size <$> prepareRead allocator position false.

(** [AddressableNonNullValueList::copySerializedTo]: the result is the
    returned size and the buffer after the copy. *)
Definition copySerializedTo (allocator : HSA.t) (position : HSA.Position)
    (buffer : list byte) (size : nat) : option (Checked (nat * list byte)) :=
  stream ← prepareRead allocator position false;
  let streamSize := HSA.size stream in
  if decide (size < streamSize)%nat then Some VeloxRuntimeError else
  let stream := HSA.seekp 0 stream in
  copied ← HSA.readBytes streamSize stream;
  Some (Ok (streamSize, copied ++ drop streamSize buffer)).

(** The list's invariant: once the first write has happened,
    [currentPosition_] is the end of the list's chain. *)
Definition valid (l : t) (allocator : HSA.t) : Prop :=
  match firstHeader_ l with
  | None => True
  | Some _ => HSA.atEnd allocator (currentPosition_ l)
  end.

(** [storesBetween allocator p pre record suffix]: the stream of the chain
    from the block of [p] on is [pre], the bytes before [p], then [record],
    then [suffix]. *)
Definition storesBetween (allocator : HSA.t) (p : HSA.Position)
    (pre record suffix : list byte) : Prop :=
  HSA.prepareRead allocator (HSA.header p)
    = Some {| HSA.bytes := pre ++ record ++ suffix; HSA.cursor := 0 |} ∧
  length pre = HSA.offset p.

(** [stores allocator p record]: the bytes [record] lie in the chain at
    position [p]. *)
Definition stores (allocator : HSA.t) (p : HSA.Position) (record : list byte) : Prop :=
  ∃ pre suffix, storesBetween allocator p pre record suffix.

Section WithCodec.
Context {Value VType : Type} `{!ValueCodec Value VType}.

(** The record [append] writes for a value: its hash, then its serialized
    form. *)
Definition recordOf (v : Value) : list byte :=
  le_encode sizeof_uint64 (hashValueAt v) ++ serialize v.

(** [AddressableNonNullValueList::append] *)
Definition append (l : t) (decoded : DecodedVector (list Value)) (index : nat) (allocator : HSA.t)
  : option (HSA.Position * t * HSA.t) :=
  let '(stream, l1, allocator1) := makeOutputStream l allocator in
  i ← DecodedVector_index decoded index;
  v ← base decoded !! i;
  let stream := HSA.appendOne (hashValueAt v) stream in
  let stream := HSA.append (serialize v) stream in
  finishWrite l1 allocator1 stream.

(** [AddressableNonNullValueList::equalTo] *)
Definition equalTo (allocator : HSA.t) (left right : HSA.Position) (type : VType)
  : option bool :=
  leftStream ← prepareRead allocator left true;
  rightStream ← prepareRead allocator right true;
  let compareFlags := equality kNullAsValue in
  Some (bool_decide
          (compare (HSA.remaining leftStream) (HSA.remaining rightStream) type compareFlags = 0%Z)).

(** [AddressableNonNullValueList::read]: the value read is put at [index]
    of the result vector. *)
Definition read (allocator : HSA.t) (position : HSA.Position)
    (result : list Value) (index : nat) : option (list Value) :=
  stream ← prepareRead allocator position true;
  v ← deserialize (HSA.remaining stream);
  Some (<[index := v]> result).


(** The comparison of [equalTo], on two values: [ContainerRowSerde::compare]
    with the equality flags and nulls as values finds no difference
    between their serialized forms. *)
Definition sameValue (type : VType) (v w : Value) : Prop :=
  compare (serialize v) (serialize w) type (equality kNullAsValue) = 0%Z.

End WithCodec.

End AddressableNonNullValueList.

(** ** Types and vectors *)

(** Modelled from the spec: [TypeKind] of the type system, whose header is
    missing: the kinds [DistinctAggregations::create] names, and the other
    kinds of the enumeration, which its switch leaves to the default
    branch. *)
Inductive TypeKind :=
| BOOLEAN | TINYINT | SMALLINT | INTEGER | BIGINT | REAL | DOUBLE | VARCHAR
| VARBINARY | TIMESTAMP | HUGEINT | ARRAY | MAP | ROW
| UNKNOWN | FUNCTION | OPAQUE | INVALID.

(** Modelled from the spec: a type is its kind, and for a row type the
    names and the types of its children. *)
Inductive Type_ :=
| mkType (kind : TypeKind) (names : list string) (children : list Type_).

(** Modelled from the spec: [type->kind()], and the names and the types of
    the children of a row type. *)
Definition kind (t : Type_) : TypeKind := let 'mkType k _ _ := t in k.
Definition names (t : Type_) : list string := let 'mkType _ ns _ := t in ns.
Definition children (t : Type_) : list Type_ := let 'mkType _ _ cs := t in cs.

(** Modelled from the spec: [rowType->childAt(idx)] and
    [rowType->nameOf(idx)]; there is no child beyond the last. *)
Definition childAt (rowType : Type_) (idx : nat) : option Type_ := children rowType !! idx.
Definition nameOf (rowType : Type_) (idx : nat) : option string := names rowType !! idx.

(** Modelled from the spec: [ROW(names, types)], [ARRAY(elementType)] and
    [VARBINARY()]. *)
Definition ROW_ (names : list string) (types : list Type_) : Type_ := mkType ROW names types.
Definition ARRAY_ (elementType : Type_) : Type_ := mkType ARRAY [] [elementType].
Definition VARBINARY_ : Type_ := mkType VARBINARY [] [].

(** Modelled from the spec: the vectors of the columnar representation, as
    far as DistinctAggregations.cpp looks into them: flat vectors of
    nullable values, flat vectors of [StringView], row vectors and array
    vectors. *)
Inductive Vector (Value : Type) :=
| FlatVector (values : list (option Value))
| FlatVectorOfStringView (values : list (list byte))
| RowVector (size : nat) (children : list (Vector Value))
| ArrayVector (offsets sizes : list nat) (elements : Vector Value).
Arguments FlatVector {Value} values.
Arguments FlatVectorOfStringView {Value} values.
Arguments RowVector {Value} size children.
Arguments ArrayVector {Value} offsets sizes elements.

(** Modelled from the spec: [vector->size()]. *)
Definition Vector_size {Value} (v : Vector Value) : nat :=
  match v with
  | FlatVector values => length values
  | FlatVectorOfStringView values => length values
  | RowVector size _ => size
  | ArrayVector offsets _ _ => length offsets
  end.

(** Modelled from the spec: [rowVector->childAt(idx)]. *)
Definition Vector_childAt {Value} (v : Vector Value) (idx : nat) : option (Vector Value) :=
  match v with
  | RowVector _ children => children !! idx
  | _ => None
  end.

(** Modelled from the spec: [BaseVector::create(type, size, pool)], a
    vector of [size] cells that hold no value yet. *)
Fixpoint BaseVector_create {Value} (type : Type_) (size : nat) : Vector Value :=
  match type with
  | mkType ROW _ children =>
      RowVector size (map (λ child, BaseVector_create child size) children)
  | mkType _ _ _ => FlatVector (replicate size None)
  end.

(** Modelled from the spec: [SelectivityVector], one bit per row. *)
Abbreviation SelectivityVector := (list bool).

(** Modelled from the spec: the rows [applyToSelected] visits, in
    ascending order. *)
Definition selected (rows : SelectivityVector) : list nat :=
  filter (λ i, rows !! i = Some true) (seq 0 (length rows)).

(** Modelled from the spec: [decoded.decode(vector, rows)]; a vector of
    the model is its own base. *)
Definition decode {Value} (vector : Vector Value) (rows : SelectivityVector)
  : DecodedVector (Vector Value) :=
  {| base := vector; indices := seq 0 (Vector_size vector) |}.

(** ** The collaborators of DistinctAggregations.cpp *)

(** The allocator behind [allocator_], a parameter: what the row size
    tracker reads of it. *)
Class Allocator (Alloc : Type) := {
  cumulativeBytes : Alloc → N }.

(** The interface of [SetAccumulator<T>], the uniqueness set of one group,
    a parameter: its constructor and the member functions
    DistinctAggregations.cpp calls. The functions that take the allocator
    return its new state; [SetAccumulator_extractForSpill acc size] is what
    [extractForSpill(data, size)] writes at [data], whose length it
    returns. *)
Class SetAccumulator (Value Alloc Acc : Type) := {
  SetAccumulator_new : Type_ → Acc;
  addValue : DecodedVector (Vector Value) → nat → Alloc → Acc → Acc * Alloc;
  addFromSpill : list (list byte) → Alloc → Acc → Acc * Alloc;
  SetAccumulator_size : Acc → nat;
  SetAccumulator_extractValues : Acc → Vector Value → nat → Vector Value;
  maxSpillSize : Acc → nat;
  SetAccumulator_extractForSpill : Acc → nat → list byte;
  clear : Alloc → Acc → Acc * Alloc;
  free : Alloc → Acc → Alloc;
  sizeof_AccumulatorType : nat }.

(** ** DistinctAggregations.cpp *)

Module DistinctAggregations.

(** The argument [T] of [TypedDistinctAggregations<T>]. *)
Inductive ElementType :=
| bool_ | int8_t | int16_t | int32_t | int64_t | float_ | double_
| Timestamp | StringView | ComplexType.

Section Typed.
Context {Value Alloc Acc Other : Type}.
Context `{!Allocator Alloc} `{!SetAccumulator Value Alloc Acc}.

(** A group row, [char*] in the source: the bytes that hold null flags
    ([group[nullByte_]]), the accumulator at [group + offset_] (absent until
    it is constructed), the row size counter at [group[rowSizeOffset_]], and
    what the wrapped aggregate functions keep in the row. *)
Record GroupRow := {
  nullFlags : list Z;
  accumulator : option Acc;
  rowSize : N;
  other : Other }.

(** The rows by address, and the allocator they share ([allocator_]). *)
Record Store := {
  rows : gmap nat GroupRow;
  allocator : Alloc }.

(** The wrapped aggregate function ([aggregate.function]), a parameter:
    the member functions called here, which work on the rows. *)
Record Aggregate := {
  Aggregate_initializeNewGroups : list nat → list nat → Store → Store;
  Aggregate_addSingleGroupRawInput :
    nat → SelectivityVector → list (Vector Value) → bool → Store → Store;
  Aggregate_extractValues : list nat → nat → Store → Vector Value → Vector Value;
  Aggregate_destroy : list nat → Store → Store }.

(** [AggregateInfo], as far as it is used. *)
Record AggregateInfo := {
  function : Aggregate;
  inputs : list nat;
  output : nat }.

(** The members of [TypedDistinctAggregations<T>] and those of its base
    that locate the accumulator's null flag in a row. *)
Record TypedDistinctAggregations := {
  elementType : ElementType;
  aggregates_ : list AggregateInfo;
  inputs_ : list nat;
  inputType_ : Type_;
  decodedInput_ : option (DecodedVector (Vector Value));
  inputForAccumulator_ : option (Vector Value);
  nullByte_ : nat;
  nullMask_ : Z }.

Implicit Types (this : TypedDistinctAggregations) (st : Store).

(** [reinterpret_cast<AccumulatorType*>(group + offset_)]: the accumulator
    of the row at address [group]; there is none where no row lives or
    where none was constructed. *)
Definition accumulatorOf st (group : nat) : option (GroupRow * Acc) :=
  row ← rows st !! group;
  acc ← accumulator row;
  Some (row, acc).

(** A row with another accumulator. *)
Definition setAccumulator (row : GroupRow) (acc : option Acc) : GroupRow :=
  {| nullFlags := nullFlags row; accumulator := acc;
     rowSize := rowSize row; other := other row |}.

(** The store after a write to the row at [group] and to the allocator. *)
Definition setRow st (group : nat) (row : GroupRow) (a : Alloc) : Store :=
  {| rows := <[group := row]> (rows st); allocator := a |}.

(** Modelled from the spec: the row size accounting helper
    ([RowSizeTracker<char, uint32_t>], whose header is missing) adds to the
    counter of the row what the allocator handed out while it was alive;
    the counter is a [uint32_t] that does not wrap. *)
Definition trackRowSize (row : GroupRow) (before after : Alloc) : GroupRow :=
  {| nullFlags := nullFlags row; accumulator := accumulator row;
     rowSize := N.min (rowSize row + (cumulativeBytes after - cumulativeBytes before))
                      (2 ^ 32 - 1);
     other := other row |}.

(** [isSingleInputAggregate] *)
Definition isSingleInputAggregate this : option bool :=
  aggregate ← aggregates_ this !! 0;
  Some (bool_decide (length (inputs aggregate) = 1)).

(** [makeInputTypeForAccumulator] *)
Definition makeInputTypeForAccumulator (rowType : Type_) (inputs : list nat)
  : option Type_ :=
  if decide (length inputs = 1) then
    channel ← inputs !! 0;
    childAt rowType channel
  else
    names ← mapM (nameOf rowType) inputs;
    types ← mapM (childAt rowType) inputs;
    Some (ROW_ names types).

(** [makeInputForAccumulator] *)
Definition makeInputForAccumulator this (input : Vector Value) : option (Vector Value) :=
  single ← isSingleInputAggregate this;
  if single : bool then
    channel ← inputs_ this !! 0;
    Vector_childAt input channel
  else
    newChildren ← mapM (Vector_childAt input) (inputs_ this);
    Some (RowVector (Vector_size input) newChildren).

(** [makeInputForAggregation] *)
Definition makeInputForAggregation this (input : Vector Value)
  : option (list (Vector Value)) :=
  single ← isSingleInputAggregate this;
  if single : bool then Some [input]
  else match input with
       | RowVector _ children => Some children
       | _ => None
       end.

(** The object with other values of [inputForAccumulator_] and
    [decodedInput_]. *)
Definition setDecoded this (input : option (Vector Value))
    (decoded : option (DecodedVector (Vector Value))) : TypedDistinctAggregations :=
  {| elementType := elementType this; aggregates_ := aggregates_ this;
     inputs_ := inputs_ this; inputType_ := inputType_ this;
     decodedInput_ := decoded; inputForAccumulator_ := input;
     nullByte_ := nullByte_ this; nullMask_ := nullMask_ this |}.

(** [decodeInput] *)
Definition decodeInput this (input : Vector Value) (rows : SelectivityVector)
  : option TypedDistinctAggregations :=
  inputForAccumulator ← makeInputForAccumulator this input;
  Some (setDecoded this (Some inputForAccumulator) (Some (decode inputForAccumulator rows))).

(** [group[nullByte_] |= nullMask_] followed by the placement [new] of the
    accumulator at [group + offset_]; the flag byte is a [char]. *)
Definition initializedRow this (row : GroupRow) : GroupRow :=
  {| nullFlags := alter (λ b, Z.land (Z.lor b (nullMask_ this)) 255) (nullByte_ this)
                        (nullFlags row);
     accumulator := Some (SetAccumulator_new (inputType_ this));
     rowSize := rowSize row; other := other row |}.

(** The body of the first loop of [initializeNewGroups]. *)
Definition initializeGroup this (groups : list nat) st (i : nat) : option Store :=
  group ← groups !! i;
  row ← rows st !! group;
  Some (setRow st group (initializedRow this row) (allocator st)).

(** [initializeNewGroups] *)
Definition initializeNewGroups this (groups : list nat) (indices : list nat) st
  : option Store :=
  st ← forEach (initializeGroup this groups) st indices;
  Some (foldl (λ st aggregate,
                 Aggregate_initializeNewGroups (function aggregate) groups indices st)
              st (aggregates_ this)).

(** [addInput]; the row size tracker lives through one call of
    [addValue]. *)
Definition addInput this (groups : list nat) (input : Vector Value)
    (rows : SelectivityVector) st : option (TypedDistinctAggregations * Store) :=
  this ← decodeInput this input rows;
  decoded ← decodedInput_ this;
  st ← forEach
         (λ st i,
            group ← groups !! i;
            '(row, acc) ← accumulatorOf st group;
            let '(acc, a) := addValue decoded i (allocator st) acc in
            Some (setRow st group
                    (trackRowSize (setAccumulator row (Some acc)) (allocator st) a) a))
         st (selected rows);
  Some (setDecoded this None (decodedInput_ this), st).

(** [addSingleGroupInput]; the row size tracker lives through the loop. *)
Definition addSingleGroupInput this (group : nat) (input : Vector Value)
    (rows : SelectivityVector) st : option (TypedDistinctAggregations * Store) :=
  this ← decodeInput this input rows;
  decoded ← decodedInput_ this;
  '(row, acc) ← accumulatorOf st group;
  let '(acc, a) :=
    foldl (λ '(acc, a) i, addValue decoded i a acc) (acc, allocator st) (selected rows) in
  Some (setDecoded this None (decodedInput_ this),
        setRow st group (trackRowSize (setAccumulator row (Some acc)) (allocator st) a) a).

(** [addSingleGroupSpillInput]; [size] and [offset] are read from the
    indicated cell and not used. *)
Definition addSingleGroupSpillInput this (group : nat) (input : Vector Value)
    (index : nat) st : option Store :=
  match input with
  | ArrayVector offsets sizes elements =>
      match elements with
      | FlatVectorOfStringView elementsVector =>
          size ← sizes !! index;
          offset ← offsets !! index;
          '(row, acc) ← accumulatorOf st group;
          let '(acc, a) := addFromSpill elementsVector (allocator st) acc in
          Some (setRow st group (setAccumulator row (Some acc)) a)
      | _ => None
      end
  | _ => None
  end.

(** The inner loop of [extractValues]: one group's distinct values go to the
    wrapped function as one batch. *)
Definition addDistinctInputs this (aggregate : AggregateInfo) st (group : nat)
  : option Store :=
  '(row, acc) ← accumulatorOf st group;
  let data := BaseVector_create (inputType_ this) (SetAccumulator_size acc) in
  let data := SetAccumulator_extractValues acc data 0 in
  let rows := replicate (Vector_size data) true in
  inputForAggregation ← makeInputForAggregation this data;
  Some (Aggregate_addSingleGroupRawInput (function aggregate) group rows
          inputForAggregation false st).

(** [extractValues] *)
Definition extractValues this (groups : list nat) (result : Vector Value) st
  : option (Vector Value * Store) :=
  forEach
    (λ '(result, st) aggregate,
       st ← forEach (addDistinctInputs this aggregate) st groups;
       match result with
       | RowVector size children =>
           child ← children !! output aggregate;
           let child :=
             Aggregate_extractValues (function aggregate) groups (length groups) st child in
           let st := Aggregate_destroy (function aggregate) groups st in
           Some (RowVector size (<[output aggregate := child]> children), st)
       | _ => None
       end)
    (result, st) (aggregates_ this).

(** [rawOffsets] of [extractForSpill]: each cell starts where the cells
    before it end. The running offset is a [vector_size_t] in the source;
    the sum is taken here within its range, without wrap-around. *)
Fixpoint offsetsFrom (offset : nat) (sizes : list nat) : list nat :=
  match sizes with
  | [] => []
  | size :: sizes' => offset :: offsetsFrom (offset + size) sizes'
  end.

(** One turn of the second loop of [extractForSpill]: the accumulator
    writes at [rawBuffer + offset], within the [totalBytes - offset] bytes
    left, and is cleared. *)
Definition spillGroup (totalBytes : nat) (state : nat * list byte * Store) (group : nat)
  : option (nat * list byte * Store) :=
  let '(offset, rawBuffer, st) := state in
  '(row, acc) ← accumulatorOf st group;
  let spilled := SetAccumulator_extractForSpill acc (totalBytes - offset) in
  if decide (length spilled ≤ totalBytes - offset) then
    let rawBuffer :=
      take offset rawBuffer ++ spilled ++ drop (offset + length spilled) rawBuffer in
    let '(acc, a) := clear (allocator st) acc in
    Some (offset + length spilled, rawBuffer,
          setRow st group (setAccumulator row (Some acc)) a)
  else None.

(** [extractForSpill]: the sizes and offsets of the cells, one per group,
    and the one string of the elements vector, which takes what the
    accumulators write one after the other. *)
Definition extractForSpill this (groups : list nat) (result : Vector Value) st
  : option (Vector Value * Store) :=
  match result with
  | ArrayVector _ _ (FlatVectorOfStringView _) =>
      accumulators ← mapM (λ group, snd <$> accumulatorOf st group) groups;
      let rawSizes := maxSpillSize <$> accumulators in
      let rawOffsets := offsetsFrom 0 rawSizes in
      let totalBytes := foldr Nat.add 0 rawSizes in
      let rawBuffer := replicate totalBytes x00 in
      '(offset, rawBuffer, st) ← forEach (spillGroup totalBytes) (0, rawBuffer, st) groups;
      Some (ArrayVector rawOffsets rawSizes (FlatVectorOfStringView [take offset rawBuffer]),
            st)
  | _ => None
  end.

(** [accumulator->maxSpillSize()] for the accumulator of a group. *)
Definition maxSpillSizeOf st (group : nat) : nat :=
  from_option (λ ra, maxSpillSize ra.2) 0 (accumulatorOf st group).

(** The descriptor [accumulator()] returns. *)
Record Accumulator := {
  isFixedSize : bool;
  fixedWidthSize : nat;
  usesExternalMemory : bool;
  alignment : nat;
  spillType : Type_;
  spillExtractFunction : list nat → Vector Value → Store → option (Vector Value * Store);
  destroyFunction : list nat → Store → option Store }.

(** [accumulator()]; after [free] a row holds no accumulator. *)
Definition accumulator_ this : Accumulator :=
  {| isFixedSize := false;
     fixedWidthSize := sizeof_AccumulatorType;
     usesExternalMemory := false;
     alignment := 1;
     spillType := ARRAY_ VARBINARY_;
     spillExtractFunction := extractForSpill this;
     destroyFunction := λ groups st,
       forEach (λ st group,
                  '(row, acc) ← accumulatorOf st group;
                  Some (setRow st group (setAccumulator row None)
                          (free (allocator st) acc)))
               st groups |}.

(** The constructor of [TypedDistinctAggregations<T>]. *)
Definition construct (T : ElementType) (aggregates : list AggregateInfo)
    (inputType : Type_) : Checked TypedDistinctAggregations :=
  match aggregates !! 0 with
  | Some aggregate =>
      match makeInputTypeForAccumulator inputType (inputs aggregate) with
      | Some type =>
          Ok {| elementType := T; aggregates_ := aggregates;
                inputs_ := inputs aggregate; inputType_ := type;
                decodedInput_ := None; inputForAccumulator_ := None;
                nullByte_ := 0; nullMask_ := 0 |}
      | None => VeloxRuntimeError
      end
  | None => VeloxRuntimeError
  end.

(** [DistinctAggregations::create] *)
Definition create (aggregates : list AggregateInfo) (inputType : Type_)
  : Checked TypedDistinctAggregations :=
  if decide (length aggregates = 1) then
    match aggregates !! 0 with
    | Some aggregate =>
        if decide (inputs aggregate = []) then VeloxRuntimeError else
        let isSingleInput := bool_decide (length (inputs aggregate) = 1) in
        if negb isSingleInput then construct ComplexType aggregates inputType else
        match inputs aggregate !! 0 ≫= childAt inputType with
        | Some type =>
            match kind type with
            | BOOLEAN => construct bool_ aggregates inputType
            | TINYINT => construct int8_t aggregates inputType
            | SMALLINT => construct int16_t aggregates inputType
            | INTEGER => construct int32_t aggregates inputType
            | BIGINT => construct int64_t aggregates inputType
            | REAL => construct float_ aggregates inputType
            | DOUBLE => construct double_ aggregates inputType
            | TIMESTAMP => construct Timestamp aggregates inputType
            | VARCHAR => construct StringView aggregates inputType
            | ARRAY | MAP | ROW => construct ComplexType aggregates inputType
            | _ => VeloxRuntimeError
            end
        | None => VeloxRuntimeError
        end
    | None => VeloxRuntimeError
    end
  else VeloxRuntimeError.

(** A wrapped aggregate function that keeps to its own state in the rows:
    feeding it input and destroying its state change no accumulator of the
    distinct aggregation. *)
Definition keepsAccumulators (f : Aggregate) : Prop :=
  (∀ group selection args mayPushdown st (g : nat),
     accumulator <$> rows (Aggregate_addSingleGroupRawInput f group selection args
                             mayPushdown st) !! g
     = accumulator <$> rows st !! g) ∧
  (∀ groups st (g : nat),
     accumulator <$> rows (Aggregate_destroy f groups st) !! g
     = accumulator <$> rows st !! g).

(** The declared inputs are columns of the input row type. *)
Definition resolves (inputType : Type_) (inputs : list nat) : Prop :=
  Forall (λ channel, is_Some (nameOf inputType channel) ∧
                     is_Some (childAt inputType channel)) inputs.

End Typed.

(** The specialization the specification gives each kind of input column:
    "boolean, the integer widths, real, double, timestamp, varchar each
    getting their typed specialization", array, map and row the "one generic
    opaque/complex-element specialization". *)
Definition specializationBySpec (k : TypeKind) : option ElementType :=
  match k with
  | BOOLEAN => Some bool_
  | TINYINT => Some int8_t
  | SMALLINT => Some int16_t
  | INTEGER => Some int32_t
  | BIGINT => Some int64_t
  | REAL => Some float_
  | DOUBLE => Some double_
  | TIMESTAMP => Some Timestamp
  | VARCHAR => Some StringView
  | ARRAY | MAP | ROW => Some ComplexType
  | _ => None
  end.

(** The input types there is a specialization for: the declared inputs are
    columns of the input, and a sole input column has a kind the switch of
    [create] names. *)
Definition supportedInputs (inputType : Type_) (inputs : list nat) : Prop :=
  resolves inputType inputs ∧
  ∀ channel type,
    inputs = [channel] → childAt inputType channel = Some type →
    is_Some (specializationBySpec (kind type)).

End DistinctAggregations.

(** ** Instances of the collaborators

    Small instances of the collaborators' interfaces, on which the
    operations above run. *)

Module Fixtures.

Import Bytes ContainerRowSerde.

(** Modelled from the spec: an instance of the typed value codec
    ("serialize(value, stream), deserialize(stream, index,
    destinationColumn), compare(streamA, streamB, type, flags) operating on
    one element at a time against a cursor"), for [TINYINT] values, each its
    one-byte image: the hash is the byte's value, the serialized form the
    byte itself, and the comparison the difference of the two bytes. *)
#[export] Instance tinyintCodec : ValueCodec byte Type_ := {|
  hashValueAt v := Byte.to_N v;
  serialize v := [v];
  deserialize stream := head stream;
  compare left right _ _ :=
    match head left, head right with
    | Some l, Some r => (Z.of_N (Byte.to_N l) - Z.of_N (Byte.to_N r))%Z
    | _, _ => 1%Z
    end |}.

(** An allocator that has handed out no chain yet, and whose continuation
    blocks hold 16 bytes. *)
Definition freshAllocator : HashStringAllocator.t :=
  {| HashStringAllocator.chains := []; HashStringAllocator.increment := 16 |}.

(** Modelled from the spec: the uniqueness set of one group ("the external
    collaborator tracking which values have already been seen for a group,
    keyed by value equality"), for 64-bit integer elements; the source of
    [SetAccumulator] is missing. *)
Record Int64Set := { hasNull : bool; uniqueValues : list Z }.

Definition Int64Set_empty : Int64Set := {| hasNull := false; uniqueValues := [] |}.

Definition Int64Set_size (acc : Int64Set) : nat :=
  length (uniqueValues acc) + (if hasNull acc then 1 else 0).

(** Inserting a value; the second component tells whether it was new. *)
Definition Int64Set_insert (v : option Z) (acc : Int64Set) : Int64Set * bool :=
  match v with
  | None => ({| hasNull := true; uniqueValues := uniqueValues acc |}, negb (hasNull acc))
  | Some z =>
      if decide (z ∈ uniqueValues acc) then (acc, false)
      else ({| hasNull := hasNull acc; uniqueValues := uniqueValues acc ++ [z] |}, true)
  end.

(** The elements of the set, the null last. *)
Definition Int64Set_elements (acc : Int64Set) : list (option Z) :=
  (Some <$> uniqueValues acc) ++ (if hasNull acc then [None] else []).

(** Modelled from the spec: one spilled element; a tag byte tells a null
    from a value, whose eight bytes follow. *)
Definition spillElement (v : option Z) : list byte :=
  match v with
  | None => [x00]
  | Some z => x01 :: le_encode sizeof_uint64 (Z.to_N (z mod 2 ^ 64))
  end.

Definition int64_of_uint64 (n : N) : Z :=
  if decide (n < 2 ^ 63)%N then Z.of_N n else (Z.of_N n - 2 ^ 64)%Z.

(** Reading spilled elements back, one after the other. *)
Fixpoint unspill (fuel : nat) (stream : list byte) : list (option Z) :=
  match fuel with
  | O => []
  | S fuel' =>
      match stream with
      | [] => []
      | tag :: rest =>
          if Byte.eqb tag x00 then None :: unspill fuel' rest
          else Some (int64_of_uint64 (le_decode (take sizeof_uint64 rest)))
                 :: unspill fuel' (drop sizeof_uint64 rest)
      end
  end.

(** The value of a cell of a decoded flat vector. *)
Definition cellAt (decoded : DecodedVector (Vector Z)) (index : nat) : option Z :=
  match base decoded with
  | FlatVector values => mjoin (indices decoded !! index ≫= λ i, values !! i)
  | _ => None
  end.

(** Modelled from the spec: an allocator that is the count of the bytes it
    has handed out. *)
#[export] Instance countingAllocator : Allocator N := {|
  cumulativeBytes a := a |}.

(** Modelled from the spec: the member functions of the uniqueness set
    ("construction from an element type and allocator; addValue,
    addFromSpill, size, extractValues, maxSpillSize, extractForSpill, clear,
    free"). *)
#[export] Instance int64SetAccumulator : SetAccumulator Z N Int64Set := {|
  SetAccumulator_new _ := Int64Set_empty;
  addValue decoded index a acc :=
    let '(acc', isNew) := Int64Set_insert (cellAt decoded index) acc in
    (acc', if isNew : bool then (a + 8)%N else a);
  addFromSpill vector a acc :=
    foldl (λ '(acc, a) v,
             let '(acc', isNew) := Int64Set_insert v acc in
             (acc', if isNew : bool then (a + 8)%N else a))
          (acc, a)
          (vector ≫= λ stream, unspill (length stream) stream);
  SetAccumulator_size := Int64Set_size;
  SetAccumulator_extractValues acc data offset :=
    match data with
    | FlatVector values =>
        FlatVector (take offset values ++ Int64Set_elements acc
                    ++ drop (offset + Int64Set_size acc) values)
    | _ => data
    end;
  maxSpillSize acc := 9 * Int64Set_size acc;
  SetAccumulator_extractForSpill acc _ := Int64Set_elements acc ≫= spillElement;
  clear a _ := (Int64Set_empty, a);
  free a _ := a;
  sizeof_AccumulatorType := 16 |}.

Import DistinctAggregations.

Abbreviation CountRow := (@GroupRow Int64Set Z).
Abbreviation CountStore := (@Store N Int64Set Z).

Definition setOther (row : CountRow) (count : Z) : CountRow :=
  {| nullFlags := nullFlags row; accumulator := accumulator row;
     rowSize := rowSize row; other := count |}.

(** The rows of [args[0]] that are selected and not null. *)
Definition countNonNull (rows : SelectivityVector) (args : list (Vector Z)) : Z :=
  match args with
  | FlatVector values :: _ =>
      Z.of_nat (length (filter (λ i, is_Some (mjoin (values !! i))) (selected rows)))
  | _ => 0
  end.

(** Modelled from the spec: the wrapped aggregate of the concrete scenario,
    "count": its state in a row is the count so far, which
    [addSingleGroupRawInput] raises by the number of selected rows that are
    not null. *)
Definition countAggregate : @Aggregate Z N Int64Set Z :=
  {| Aggregate_initializeNewGroups groups indices (st : CountStore) :=
       foldl (λ (st : CountStore) i,
                match groups !! i with
                | Some group =>
                    {| rows := alter (λ row, setOther row 0) group (rows st);
                       allocator := allocator st |}
                | None => st
                end) st indices;
     Aggregate_addSingleGroupRawInput group selection args _ (st : CountStore) :=
       {| rows := alter (λ row, setOther row (other row + countNonNull selection args)%Z)
                        group (rows st);
          allocator := allocator st |};
     Aggregate_extractValues groups numGroups (st : CountStore) result :=
       match result with
       | FlatVector values =>
           FlatVector
             (foldl (λ values i,
                       match groups !! i ≫= λ group, rows st !! group with
                       | Some row => <[i := Some (other row)]> values
                       | None => values
                       end) values (seq 0 numGroups))
       | _ => result
       end;
     Aggregate_destroy _ (st : CountStore) := st |}.

(** *** A list of [TINYINT] values *)

Definition tinyint : Type_ := mkType TINYINT [] [].

Definition tinyints (values : list byte) : DecodedVector (list byte) :=
  {| base := values; indices := seq 0 (length values) |}.

(** Appending the values one after the other to a new list; the result has
    the positions returned, in order. *)
Definition appendAll (values : list byte)
  : option (list HashStringAllocator.Position
            * AddressableNonNullValueList.t * HashStringAllocator.t) :=
  foldl (λ state index,
           '(positions, l, a) ← state;
           '(p, l, a) ← AddressableNonNullValueList.append l (tinyints values) index a;
           Some (positions ++ [p], l, a))
        (Some ([], AddressableNonNullValueList.empty, freshAllocator))
        (seq 0 (length values)).

(** The list and the allocator after the values 5 and 7 were appended, and
    the position of the second. *)
Definition twoRecords : AddressableNonNullValueList.t * HashStringAllocator.t :=
  Eval vm_compute in
    from_option (λ s, (s.1.2, s.2))
      (AddressableNonNullValueList.empty, freshAllocator) (appendAll [x05; x07]).

Definition firstRecord : HashStringAllocator.Position :=
  {| HashStringAllocator.header :=
       {| HashStringAllocator.chainOf := 0; HashStringAllocator.blockOf := 0 |};
     HashStringAllocator.offset := 0 |}.

Definition secondRecord : HashStringAllocator.Position :=
  {| HashStringAllocator.header :=
       {| HashStringAllocator.chainOf := 0; HashStringAllocator.blockOf := 0 |};
     HashStringAllocator.offset := 9 |}.

(** The list and the allocator after the value 5 was appended. *)
Definition oneRecord : AddressableNonNullValueList.t * HashStringAllocator.t :=
  Eval vm_compute in
    from_option (λ s, (s.1.2, s.2))
      (AddressableNonNullValueList.empty, freshAllocator) (appendAll [x05]).

(** The list and the allocator after four values were appended: 36 of the
    44 bytes of the first block are taken. *)
Definition fourRecords : AddressableNonNullValueList.t * HashStringAllocator.t :=
  Eval vm_compute in
    from_option (λ s, (s.1.2, s.2))
      (AddressableNonNullValueList.empty, freshAllocator)
      (appendAll [x05; x07; x09; x0a]).

(** *** Two groups under [count(distinct x)] *)

Definition bigint : Type_ := mkType BIGINT [] [].
Definition inputType : Type_ := ROW_ ["x"%string] [bigint].

Definition countInfo : @AggregateInfo Z N Int64Set Z :=
  {| function := countAggregate; inputs := [0]; output := 0 |}.

(** The object [create] makes for [count(distinct x)], with the null flag
    of its slot in bit 0 of byte 0 of a row. *)
Definition countDistinct : @TypedDistinctAggregations Z N Int64Set Z :=
  {| elementType := int64_t; aggregates_ := [countInfo]; inputs_ := [0];
     inputType_ := bigint; decodedInput_ := None; inputForAccumulator_ := None;
     nullByte_ := 0; nullMask_ := 1 |}.

(** The object as [create] leaves it. *)
Definition createdCountDistinct : @TypedDistinctAggregations Z N Int64Set Z :=
  {| elementType := int64_t; aggregates_ := [countInfo]; inputs_ := [0];
     inputType_ := bigint; decodedInput_ := None; inputForAccumulator_ := None;
     nullByte_ := 0; nullMask_ := 0 |}.

Definition newRow : CountRow :=
  {| nullFlags := [0%Z]; accumulator := None; rowSize := 0; other := 0%Z |}.

(** Rows for the groups A (at 100) and B (at 200), and a spare row (at
    300), none of them initialized. *)
Definition threeRows : CountStore :=
  {| rows := {[ 100 := newRow; 200 := newRow; 300 := newRow ]}; allocator := 0%N |}.

(** The batch of the scenario: A receives 5, 5, 7, 5 and B receives 7. *)
Definition batch : Vector Z :=
  RowVector 5 [FlatVector [Some 5; Some 5; Some 7; Some 5; Some 7]%Z].
Definition batchGroups : list nat := [100; 100; 100; 100; 200].

(** The groups A and B, initialized and fed the batch. *)
Definition fedGroups : option CountStore :=
  st ← initializeNewGroups countDistinct [100; 200] [0; 1] threeRows;
  snd <$> addInput countDistinct batchGroups batch (replicate 5 true) st.

(** The state [fedGroups] ends in. *)
Definition fedStore : CountStore :=
  Eval vm_compute in default threeRows fedGroups.

Definition emptySpillColumn : Vector Z := ArrayVector [] [] (FlatVectorOfStringView []).

(** The column [extractForSpill] makes of the two groups: the cells of A
    and B, and the one string with the elements 5 and 7 of A and 7 of B. *)
Definition spillColumn : Vector Z :=
  ArrayVector [0; 18] [18; 9]
    (FlatVectorOfStringView
       [(spillElement (Some 5) ++ spillElement (Some 7) ++ spillElement (Some 7))%Z]).

(** The results of the two groups without spilling. *)
Definition unspilled : option (Vector Z) :=
  st ← fedGroups;
  fst <$> extractValues countDistinct [100; 200] (RowVector 2 [FlatVector [None; None]]) st.

(** Spilling the two groups, restoring the cell [index] of the spill column
    into the spare row, newly initialized, and extracting its result. *)
Definition restored (index : nat) : option (Vector Z) :=
  st ← fedGroups;
  '(column, st) ← extractForSpill countDistinct [100; 200] emptySpillColumn st;
  st ← initializeNewGroups countDistinct [300] [0] st;
  st ← addSingleGroupSpillInput countDistinct 300 column index st;
  fst <$> extractValues countDistinct [300] (RowVector 1 [FlatVector [None]]) st.

End Fixtures.

(** * Properties *)

Module BytesFacts.
Import Bytes.
Local Open Scope N_scope.

Lemma to_N_byte_of_N n : Byte.to_N (byte_of_N n) = n mod 256.
Proof.
  unfold byte_of_N.
  destruct (Byte.of_N (n mod 256)) as [b|] eqn:E.
  - simpl. now apply Byte.to_of_N.
  - apply Byte.of_N_None_iff in E.
    pose proof (N.mod_upper_bound n 256). lia.
Qed.

Lemma length_le_encode w n : length (le_encode w n) = w.
Proof. revert n. induction w as [|w IH]; intros n; simpl; [done|]. by rewrite IH. Qed.

Lemma le_decode_encode w n : le_decode (le_encode w n) = n mod 256 ^ N.of_nat w.
Proof.
  revert n. induction w as [|w IH]; intros n.
  - simpl. by rewrite N.mod_1_r.
  - cbn [le_encode le_decode]. rewrite to_N_byte_of_N, IH.
    rewrite Nat2N.inj_succ, N.pow_succ_r'.
    rewrite N.Div0.mod_mul_r. lia.
Qed.

Lemma le_decode_encode_uint64 n :
  n < uint64_max -> le_decode (le_encode sizeof_uint64 n) = n.
Proof.
  intros Hn. rewrite le_decode_encode. apply N.mod_small. exact Hn.
Qed.

End BytesFacts.

(** ** The chunk chain *)

Module HashStringAllocatorFacts.
Import Bytes BytesFacts HashStringAllocator.

Lemma streamFrom_cons_0 blk (c : Chain) :
  streamFrom 0 (blk :: c) = data blk ++ streamFrom 0 c.
Proof. reflexivity. Qed.

Lemma streamFrom_cons_S h blk (c : Chain) :
  streamFrom (S h) (blk :: c) = streamFrom h c.
Proof. reflexivity. Qed.

Lemma length_putByte incr c b :
  (length c ≤ length (putByte incr c b) ≤ S (length c))%nat.
Proof.
  induction c as [|blk rest IH]; [simpl; lia|].
  destruct rest as [|blk2 rest'].
  - simpl. case_decide; simpl; lia.
  - change (putByte incr (blk :: blk2 :: rest') b)
      with (blk :: putByte incr (blk2 :: rest') b).
    simpl in *. lia.
Qed.

(** A byte written to a chain shows at the end of every stream into it. *)
Lemma streamFrom_putByte incr c b h :
  (h < length c)%nat →
  streamFrom h (putByte incr c b) = streamFrom h c ++ [b].
Proof.
  revert h. induction c as [|blk rest IH]; intros h Hh; [simpl in Hh; lia|].
  destruct rest as [|blk2 rest'].
  - assert (h = 0)%nat as -> by (simpl in Hh; lia).
    simpl. case_decide; unfold streamFrom; simpl; rewrite ?app_nil_r; done.
  - change (putByte incr (blk :: blk2 :: rest') b)
      with (blk :: putByte incr (blk2 :: rest') b).
    destruct h as [|h].
    + rewrite !streamFrom_cons_0, IH by (simpl; lia). by rewrite app_assoc.
    + rewrite !streamFrom_cons_S. apply IH. simpl in *. lia.
Qed.

Lemma putBytes_snoc incr c bs b :
  putBytes incr c (bs ++ [b]) = putByte incr (putBytes incr c bs) b.
Proof. unfold putBytes. by rewrite foldl_app. Qed.

Lemma length_putBytes incr c bs : (length c ≤ length (putBytes incr c bs))%nat.
Proof.
  induction bs as [|b bs IH] using rev_ind; [done|].
  rewrite putBytes_snoc. pose proof (length_putByte incr (putBytes incr c bs) b). lia.
Qed.

Lemma streamFrom_putBytes incr c bs h :
  (h < length c)%nat →
  streamFrom h (putBytes incr c bs) = streamFrom h c ++ bs.
Proof.
  intros Hh. induction bs as [|b bs IH] using rev_ind.
  - by rewrite app_nil_r.
  - rewrite putBytes_snoc, streamFrom_putByte, IH, app_assoc; [done|].
    pose proof (length_putBytes incr c bs). lia.
Qed.

Lemma length_trimLast n c : length (trimLast n c) = length c.
Proof.
  induction c as [|blk rest IH]; [done|].
  destruct rest as [|blk2 rest']; [done|].
  change (trimLast n (blk :: blk2 :: rest')) with (blk :: trimLast n (blk2 :: rest')).
  simpl in *. by rewrite IH.
Qed.

Lemma data_trimLast n c : data <$> trimLast n c = data <$> c.
Proof.
  induction c as [|blk rest IH]; [done|].
  destruct rest as [|blk2 rest']; [done|].
  change (trimLast n (blk :: blk2 :: rest')) with (blk :: trimLast n (blk2 :: rest')).
  rewrite !fmap_cons, IH. done.
Qed.

Lemma streamFrom_trimLast n c h : streamFrom h (trimLast n c) = streamFrom h c.
Proof. unfold streamFrom. by rewrite !fmap_drop, data_trimLast. Qed.

Lemma truncate_at_end (c : Chain) blk :
  last c = Some blk →
  truncate c (pred (length c)) (length (data blk)) = Some c.
Proof.
  intros Hlast. unfold truncate.
  rewrite <- last_lookup, Hlast. simpl.
  rewrite decide_True by lia.
  apply last_Some in Hlast as [c' ->].
  rewrite length_app, Nat.add_1_r. simpl.
  rewrite take_app_length, take_ge by lia.
  by destruct blk.
Qed.

Lemma last_is_Some (c : Chain) : c ≠ [] → ∃ blk, last c = Some blk.
Proof.
  intros Hc. destruct (last c) as [blk|] eqn:E; [eauto|].
  by apply last_None in E.
Qed.

(** Committing a write that continues at the end of a chain: the written
    bytes show at the end of every stream into the chain, the other chains
    are untouched, and the write ends at the end of the chain. *)
Lemma finishWrite_atEnd a pos bs reserve :
  atEnd a pos →
  ∃ c c',
    chains a !! chainOf (header pos) = Some c ∧
    finishWrite a {| start := pos; written := bs |} reserve
      = Some ((pos, endOf (chainOf (header pos)) c'),
              {| chains := <[chainOf (header pos) := c']> (chains a);
                 increment := increment a |}) ∧
    length c ≤ length c' ∧
    (∀ h, h < length c → streamFrom h c' = streamFrom h c ++ bs) ∧
    offset pos = length (streamFrom (blockOf (header pos)) c).
Proof.
  intros (c & Hc & Hne & Hpos).
  destruct (last_is_Some c Hne) as [blk Hlast].
  set (c' := trimLast reserve (putBytes (increment a) c bs)).
  exists c, c'. split; [done|].
  assert (blockOf (header pos) = pred (length c)) as Hb by (by rewrite Hpos).
  assert (offset pos = length (data blk)) as Ho by (by rewrite Hpos; simpl; rewrite Hlast).
  split; [|split; [|split]].
  - unfold finishWrite. simpl. rewrite Hc. simpl.
    rewrite Hb, Ho, (truncate_at_end c blk Hlast). simpl. done.
  - unfold c'. rewrite length_trimLast. apply length_putBytes.
  - intros h Hh. unfold c'. rewrite streamFrom_trimLast. by apply streamFrom_putBytes.
  - rewrite Ho, Hb. apply last_Some in Hlast as [c0 ->].
    rewrite length_app, Nat.add_1_r. simpl.
    unfold streamFrom. rewrite drop_app_length. simpl. by rewrite app_nil_r.
Qed.

Lemma atEnd_endOf a ch (c : Chain) :
  chains a !! ch = Some c → c ≠ [] → atEnd a (endOf ch c).
Proof. intros Hc Hne. exists c. done. Qed.

Lemma prepareRead_Some a h s :
  prepareRead a h = Some s →
  ∃ c, chains a !! chainOf h = Some c ∧ blockOf h < length c ∧
       s = {| bytes := streamFrom (blockOf h) c; cursor := 0 |}.
Proof.
  unfold prepareRead. intros Hs.
  destruct (chains a !! chainOf h) as [c|] eqn:Hc; [|done]. simpl in Hs.
  case_decide; [|done]. exists c. by inversion Hs.
Qed.

Lemma prepareRead_intro a h (c : Chain) :
  chains a !! chainOf h = Some c → blockOf h < length c →
  prepareRead a h = Some {| bytes := streamFrom (blockOf h) c; cursor := 0 |}.
Proof.
  intros Hc Hb. unfold prepareRead. rewrite Hc. simpl. by rewrite decide_True.
Qed.

(** What a finished write leaves behind: the write starts where it was
    asked to, ends at the end of the chain, can be read back at its start,
    and every stream that could be read before still reads the same bytes,
    possibly followed by more. *)
Lemma finishWrite_spec a pos bs reserve :
  atEnd a pos →
  ∃ endp a',
    finishWrite a {| start := pos; written := bs |} reserve = Some ((pos, endp), a') ∧
    atEnd a' endp ∧
    (∃ pre, prepareRead a' (header pos) = Some {| bytes := pre ++ bs; cursor := 0 |} ∧
            length pre = offset pos) ∧
    (∀ h s, prepareRead a h = Some s →
       ∃ suffix, prepareRead a' h = Some {| bytes := bytes s ++ suffix; cursor := 0 |}).
Proof.
  intros Hend.
  destruct (finishWrite_atEnd a pos bs reserve Hend) as (c & c' & Hc & Hfw & Hlen & Hstream & Hoff).
  destruct Hend as (c0 & Hc0 & Hne & Hpos).
  assert (c0 = c) as -> by congruence.
  assert (0 < length c) as Hpos_len by (destruct c; [done|simpl; lia]).
  assert (chainOf (header pos) < length (chains a)) as Hch by (by eapply lookup_lt_Some).
  assert (blockOf (header pos) < length c) as Hblk by (rewrite Hpos; simpl; lia).
  eexists _, _. split; [exact Hfw|]. split; [|split].
  - apply atEnd_endOf; simpl.
    + by apply list_lookup_insert_eq.
    + intros ->. simpl in Hlen. lia.
  - exists (streamFrom (blockOf (header pos)) c). split; [|done].
    rewrite <- Hstream by done. apply prepareRead_intro; simpl; [|lia].
    by apply list_lookup_insert_eq.
  - intros h s Hs. apply prepareRead_Some in Hs as (ch & Hlook & Hb & ->). simpl.
    destruct (decide (chainOf h = chainOf (header pos))) as [Heq|Hneq].
    + rewrite Heq in Hlook. assert (ch = c) as -> by congruence.
      exists bs. rewrite <- Hstream by done. apply prepareRead_intro; simpl; [|lia].
      rewrite Heq. by apply list_lookup_insert_eq.
    + exists []. rewrite app_nil_r. apply prepareRead_intro; simpl; [|done].
      by rewrite list_lookup_insert_ne.
Qed.

Lemma newWrite_spec a preferredSize :
  ∃ pos a',
    newWrite a preferredSize = (pos, {| start := pos; written := [] |}, a') ∧
    atEnd a' pos ∧ offset pos = 0 ∧
    (∀ h s, prepareRead a h = Some s → prepareRead a' h = Some s).
Proof.
  eexists _, _. split; [reflexivity|]. split; [|split; [done|]].
  - eexists. simpl. split; [|split].
    + apply list_lookup_middle. done.
    + done.
    + reflexivity.
  - intros h s Hs. apply prepareRead_Some in Hs as (ch & Hlook & Hb & ->).
    apply prepareRead_intro; simpl; [|done].
    rewrite lookup_app_l; [done|]. by eapply lookup_lt_Some.
Qed.

End HashStringAllocatorFacts.

(** ** The positioned value store *)

Module AddressableNonNullValueListFacts.
Import Bytes BytesFacts ContainerRowSerde HashStringAllocatorFacts.
Import AddressableNonNullValueList.

Lemma to_int32_small (n : nat) :
  (Z.of_nat n < 2 ^ 31)%Z → to_int32 (Z.of_nat n) = Z.of_nat n.
Proof.
  intros Hn. unfold to_int32.
  rewrite Z.mod_small; lia.
Qed.

(** [appendSerialized] on a list that satisfies its invariant: it succeeds,
    keeps the invariant, stores the buffer at the returned position, and
    leaves every record stored before where it was. *)
Lemma appendSerialized_spec l a buffer :
  valid l a →
  ∃ p l' a',
    appendSerialized l a buffer = Some (p, l', a') ∧
    valid l' a' ∧ size_ l' = S (size_ l) ∧
    is_Some (firstHeader_ l') ∧
    (is_Some (firstHeader_ l) → p = currentPosition_ l) ∧
    (firstHeader_ l = None → HSA.offset p = 0) ∧
    (∃ pre, HSA.prepareRead a' (HSA.header p)
              = Some {| HSA.bytes := pre ++ buffer; HSA.cursor := 0 |} ∧
            length pre = HSA.offset p) ∧
    (∀ q r, stores a q r → stores a' q r).
Proof.
  intros Hvalid. unfold appendSerialized, makeOutputStream, valid in *.
  destruct (firstHeader_ l) as [h0|] eqn:Hfirst.
  - destruct (finishWrite_spec a (currentPosition_ l) buffer 1024 Hvalid)
      as (endp & a' & Hfw & Hend & Hread & Hstable).
    unfold finishWrite, HSA.append, HSA.extendWrite. simpl. rewrite Hfw. simpl.
    eexists _, _, _. split; [reflexivity|]. simpl. rewrite Hfirst.
    repeat split; try done; eauto.
    intros q r (pre & suffix & Hq & Hlen).
    destruct (Hstable _ _ Hq) as [suffix' Hq']. simpl in Hq'.
    exists pre, (suffix ++ suffix'). split; [|done].
    rewrite Hq'. by rewrite <- !app_assoc.
  - destruct (newWrite_spec a kInitialSize) as (pos & a1 & Hnew & Hend1 & Hoff & Hstable1).
    rewrite Hnew.
    destruct (finishWrite_spec a1 pos buffer 1024 Hend1)
      as (endp & a' & Hfw & Hend & Hread & Hstable).
    unfold finishWrite, HSA.append. simpl. rewrite Hfw. simpl.
    eexists _, _, _. split; [reflexivity|]. simpl.
    repeat split; try done; eauto.
    intros q r (pre & suffix & Hq & Hlen).
    destruct (Hstable _ _ (Hstable1 _ _ Hq)) as [suffix' Hq']. simpl in Hq'.
    exists pre, (suffix ++ suffix'). split; [|done].
    rewrite Hq'. by rewrite <- !app_assoc.
Qed.

(** The cursor [prepareRead] hands out for a stored record: it stands at
    the record, or right behind the record's first eight bytes. *)
Lemma prepareRead_stores a p pre record suffix skipHash :
  storesBetween a p pre record suffix →
  (Z.of_nat (HSA.offset p) < 2 ^ 31)%Z →
  prepareRead a p skipHash
    = Some {| HSA.bytes := pre ++ record ++ suffix;
              HSA.cursor := length pre + (if skipHash then sizeof_uint64 else 0) |}.
Proof.
  intros (Hread & Hlen) Hoff.
  unfold prepareRead. rewrite Hread. simpl.
  rewrite to_int32_small by done.
  rewrite decide_False by lia. rewrite Nat2Z.id, Hlen.
  destruct skipHash; unfold HSA.skip, HSA.seekp; simpl; by rewrite ?Nat.add_0_r.
Qed.

Lemma remaining_at_record pre record suffix :
  HSA.remaining {| HSA.bytes := pre ++ record ++ suffix; HSA.cursor := length pre + 0 |}
  = record ++ suffix.
Proof. unfold HSA.remaining. simpl. by rewrite Nat.add_0_r, drop_app_length. Qed.

Lemma remaining_after_hash pre hash8 payload suffix :
  length hash8 = sizeof_uint64 →
  HSA.remaining {| HSA.bytes := pre ++ (hash8 ++ payload) ++ suffix;
                   HSA.cursor := length pre + sizeof_uint64 |}
  = payload ++ suffix.
Proof.
  intros Hlen. unfold HSA.remaining. simpl HSA.bytes. simpl HSA.cursor.
  rewrite <- Hlen, <- length_app, <- app_assoc, (app_assoc pre hash8).
  by rewrite drop_app_length.
Qed.

(** [readHash] decodes the first eight bytes of the record. *)
Lemma readHash_storesBetween a p pre hash8 payload suffix :
  storesBetween a p pre (hash8 ++ payload) suffix →
  length hash8 = sizeof_uint64 →
  (Z.of_nat (HSA.offset p) < 2 ^ 31)%Z →
  readHash a p = Some (le_decode hash8).
Proof.
  intros Hst Hlen Hoff.
  unfold readHash. rewrite (prepareRead_stores a p _ _ _ false Hst Hoff). simpl.
  unfold HSA.read_uint64, HSA.readBytes. rewrite remaining_at_record.
  simpl HSA.cursor. simpl HSA.bytes.
  rewrite decide_True.
  2:{ rewrite !length_app. lia. }
  simpl. rewrite <- app_assoc, <- Hlen, take_app_length. done.
Qed.

Lemma readHash_stores a p hash8 payload :
  stores a p (hash8 ++ payload) →
  length hash8 = sizeof_uint64 →
  (Z.of_nat (HSA.offset p) < 2 ^ 31)%Z →
  readHash a p = Some (le_decode hash8).
Proof. intros (pre & suffix & Hst). by eapply readHash_storesBetween. Qed.

(** [getSerializedSize] and [copySerializedTo] work on the whole stream of
    the cursor, from its first byte. *)
Lemma copySerializedTo_stream a p s :
  prepareRead a p false = Some s →
  getSerializedSize a p = Some (length (HSA.bytes s)) ∧
  ∀ buffer size,
    copySerializedTo a p buffer size
    = Some (if decide (size < length (HSA.bytes s))
            then VeloxRuntimeError
            else Ok (length (HSA.bytes s),
                     HSA.bytes s ++ drop (length (HSA.bytes s)) buffer)).
Proof.
  intros Hs. unfold getSerializedSize, copySerializedTo. rewrite Hs. simpl.
  split; [done|]. intros buffer size. unfold HSA.size.
  case_decide; [done|].
  unfold HSA.readBytes, HSA.remaining, HSA.seekp. simpl.
  rewrite decide_True by done. simpl.
  by rewrite take_ge.
Qed.

Section WithCodec.
Context {Value VType : Type} `{!ValueCodec Value VType}.

(** [read] hands the codec what follows the hash. *)
Lemma read_storesBetween a p pre hash8 payload suffix (result : list Value) index :
  storesBetween a p pre (hash8 ++ payload) suffix →
  length hash8 = sizeof_uint64 →
  (Z.of_nat (HSA.offset p) < 2 ^ 31)%Z →
  read a p result index
  = v ← deserialize (payload ++ suffix); Some (<[index := v]> result).
Proof.
  intros Hst Hlen Hoff.
  unfold read. rewrite (prepareRead_stores a p _ _ _ true Hst Hoff). simpl.
  by rewrite remaining_after_hash.
Qed.

(** [equalTo] compares what follows the two hashes. *)
Lemma equalTo_storesBetween a p q preP hashP payloadP suffixP preQ hashQ payloadQ suffixQ
    (type : VType) :
  storesBetween a p preP (hashP ++ payloadP) suffixP →
  length hashP = sizeof_uint64 → (Z.of_nat (HSA.offset p) < 2 ^ 31)%Z →
  storesBetween a q preQ (hashQ ++ payloadQ) suffixQ →
  length hashQ = sizeof_uint64 → (Z.of_nat (HSA.offset q) < 2 ^ 31)%Z →
  equalTo a p q type
  = Some (bool_decide (compare (payloadP ++ suffixP) (payloadQ ++ suffixQ) type
                               (equality kNullAsValue) = 0%Z)).
Proof.
  intros HstP HlenP HoffP HstQ HlenQ HoffQ.
  unfold equalTo.
  rewrite (prepareRead_stores a p _ _ _ true HstP HoffP).
  rewrite (prepareRead_stores a q _ _ _ true HstQ HoffQ). simpl.
  by rewrite !remaining_after_hash.
Qed.

(** [append] writes the value's record the way [appendSerialized] writes a
    buffer. *)
Lemma append_appendSerialized l (decoded : DecodedVector (list Value)) index a i v :
  DecodedVector_index decoded index = Some i →
  base decoded !! i = Some v →
  append l decoded index a = appendSerialized l a (recordOf v).
Proof.
  intros Hi Hv. unfold append, appendSerialized.
  destruct (makeOutputStream l a) as [[stream l1] a1].
  rewrite Hi. simpl. rewrite Hv. simpl.
  unfold HSA.appendOne, HSA.append, recordOf. cbn [HSA.start HSA.written].
  by rewrite app_assoc.
Qed.

Lemma length_hash_prefix (v : Value) :
  length (le_encode sizeof_uint64 (hashValueAt v)) = sizeof_uint64.
Proof. apply length_le_encode. Qed.

(** [append] on a list that satisfies its invariant. *)
Lemma append_spec l (decoded : DecodedVector (list Value)) index a i v :
  valid l a →
  DecodedVector_index decoded index = Some i →
  base decoded !! i = Some v →
  ∃ p l' a',
    append l decoded index a = Some (p, l', a') ∧
    valid l' a' ∧ size_ l' = S (size_ l) ∧
    (is_Some (firstHeader_ l) → p = currentPosition_ l) ∧
    (firstHeader_ l = None → HSA.offset p = 0) ∧
    stores a' p (recordOf v) ∧
    (∀ q r, stores a q r → stores a' q r).
Proof.
  intros Hvalid Hi Hv.
  rewrite (append_appendSerialized l decoded index a i v Hi Hv).
  destruct (appendSerialized_spec l a (recordOf v) Hvalid)
    as (p & l' & a' & Happ & Hvalid' & Hsize & _ & Hcur & Hzero & (pre & Hread & Hlen) & Hstable).
  exists p, l', a'. repeat split; try done.
  exists pre, []. split; [|done]. by rewrite app_nil_r.
Qed.


Lemma offset_of_append l (p : HSA.Position) :
  (is_Some (firstHeader_ l) → (Z.of_nat (HSA.offset (currentPosition_ l)) < 2 ^ 31)%Z) →
  (is_Some (firstHeader_ l) → p = currentPosition_ l) →
  (firstHeader_ l = None → HSA.offset p = 0) →
  (Z.of_nat (HSA.offset p) < 2 ^ 31)%Z.
Proof.
  intros Hsmall Hcur Hzero. destruct (firstHeader_ l) as [h|].
  - rewrite Hcur by eauto. apply Hsmall. eauto.
  - rewrite Hzero by done. done.
Qed.

(** C3. Hash consistency: [readHash] at the position [append] returns for a
    value is the hash of the value, whatever the value's serialized size,
    wherever the list stands in its chain of blocks and whatever block
    capacities the record is spread over. *)
Theorem readHash_append l (decoded : DecodedVector (list Value)) index a i v :
  valid l a →
  DecodedVector_index decoded index = Some i →
  base decoded !! i = Some v →
  (hashValueAt v < uint64_max)%N →
  (is_Some (firstHeader_ l) → (Z.of_nat (HSA.offset (currentPosition_ l)) < 2 ^ 31)%Z) →
  ∃ p l' a',
    append l decoded index a = Some (p, l', a') ∧
    readHash a' p = Some (hashValueAt v).
Proof.
  intros Hvalid Hi Hv Hhash Hsmall.
  destruct (append_spec l decoded index a i v Hvalid Hi Hv)
    as (p & l' & a' & Happ & _ & _ & Hcur & Hzero & Hst & _).
  exists p, l', a'. split; [done|].
  rewrite (readHash_stores a' p _ (serialize v) Hst (length_hash_prefix v)).
  - by rewrite le_decode_encode_uint64.
  - by eapply offset_of_append.
Qed.

(** The shape of a record and its readers: what [append] stores at the
    position it returns is the eight bytes of the hash followed by the
    serialized value; and for a position that holds such a record,
    [readHash] reads the eight bytes at the start of the record, [read] and
    [equalTo] give the codec what follows these eight bytes, and
    [getSerializedSize] and [copySerializedTo] work on a range that starts
    with the block of the position and holds the record at the position's
    offset. *)
Theorem record_shape (type : VType) :
  (∀ l (decoded : DecodedVector (list Value)) index a i v,
     valid l a →
     DecodedVector_index decoded index = Some i →
     base decoded !! i = Some v →
     ∃ p l' a',
       append l decoded index a = Some (p, l', a') ∧
       stores a' p (le_encode sizeof_uint64 (hashValueAt v) ++ serialize v)) ∧
  (∀ a p pre hash8 payload suffix,
     storesBetween a p pre (hash8 ++ payload) suffix →
     length hash8 = sizeof_uint64 →
     (Z.of_nat (HSA.offset p) < 2 ^ 31)%Z →
     readHash a p = Some (le_decode hash8) ∧
     (∀ (result : list Value) k,
        read a p result k
        = v ← deserialize (payload ++ suffix); Some (<[k := v]> result)) ∧
     (∀ q preQ hashQ payloadQ suffixQ,
        storesBetween a q preQ (hashQ ++ payloadQ) suffixQ →
        length hashQ = sizeof_uint64 →
        (Z.of_nat (HSA.offset q) < 2 ^ 31)%Z →
        equalTo a p q type
        = Some (bool_decide (compare (payload ++ suffix) (payloadQ ++ suffixQ) type
                                     (equality kNullAsValue) = 0%Z))) ∧
     (∃ n copied,
        getSerializedSize a p = Some n ∧
        length copied = n ∧
        HSA.offset p + length (hash8 ++ payload) ≤ n ∧
        take (length (hash8 ++ payload)) (drop (HSA.offset p) copied) = hash8 ++ payload ∧
        ∀ buffer size,
          n ≤ size →
          copySerializedTo a p buffer size = Some (Ok (n, copied ++ drop n buffer)))).
Proof.
  split.
  - intros l decoded index a i v Hvalid Hi Hv.
    destruct (append_spec l decoded index a i v Hvalid Hi Hv)
      as (p & l' & a' & Happ & _ & _ & _ & _ & Hst & _).
    by exists p, l', a'.
  - intros a p pre hash8 payload suffix Hst Hlen Hoff.
    split; [by eapply readHash_storesBetween|].
    split; [intros; by eapply read_storesBetween|].
    split; [intros; by eapply equalTo_storesBetween|].
    pose proof (prepareRead_stores a p _ _ _ false Hst Hoff) as Hread.
    destruct (copySerializedTo_stream a p _ Hread) as [Hsize Hcopy]. simpl in *.
    destruct Hst as [_ Hpre].
    exists (length (pre ++ (hash8 ++ payload) ++ suffix)), (pre ++ (hash8 ++ payload) ++ suffix).
    split; [done|]. split; [done|]. split; [|split].
    + rewrite !length_app. lia.
    + rewrite <- Hpre, drop_app_length. by rewrite take_app_length.
    + intros buffer size Hn. rewrite Hcopy. by rewrite decide_False by lia.
Qed.

Section Roundtrip.

(** The codec reads back what it wrote, whatever follows in the stream. *)
Hypothesis deserialize_serialize :
  ∀ (v : Value) rest, deserialize (serialize v ++ rest) = Some v.

(** A value compares equal to itself. *)
Hypothesis compare_refl :
  ∀ (type : VType) (v : Value), sameValue type v v.

(** C2. Value round-trip: [read] at the position [append] returns for a
    value puts into the result vector a value that equals the appended one
    under the comparison of [equalTo]. *)
Theorem read_append l (decoded : DecodedVector (list Value)) index a i v
    (result : list Value) k (type : VType) :
  valid l a →
  DecodedVector_index decoded index = Some i →
  base decoded !! i = Some v →
  (is_Some (firstHeader_ l) → (Z.of_nat (HSA.offset (currentPosition_ l)) < 2 ^ 31)%Z) →
  k < length result →
  ∃ p l' a' result' v',
    append l decoded index a = Some (p, l', a') ∧
    read a' p result k = Some result' ∧
    result' !! k = Some v' ∧
    sameValue type v' v.
Proof.
  intros Hvalid Hi Hv Hsmall Hk.
  destruct (append_spec l decoded index a i v Hvalid Hi Hv)
    as (p & l' & a' & Happ & _ & _ & Hcur & Hzero & Hst & _).
  assert (Z.of_nat (HSA.offset p) < 2 ^ 31)%Z as Hoff by (by eapply offset_of_append).
  destruct Hst as (pre & suffix & Hst).
  pose proof (read_storesBetween a' p _ _ (serialize v) _ result k Hst
                (length_hash_prefix v) Hoff) as Hread.
  rewrite deserialize_serialize in Hread. simpl in Hread.
  exists p, l', a', (<[k := v]> result), v.
  repeat split; try done.
  by apply list_lookup_insert_eq.
Qed.

(** The codec's comparison reads one value from each stream. *)
Hypothesis compare_one_value :
  ∀ (type : VType) flags (v w : Value) restV restW,
    compare (serialize v ++ restV) (serialize w ++ restW) type flags
    = compare (serialize v) (serialize w) type flags.

(** [equalTo] on the positions of two stored values decides [sameValue]. *)
Lemma equalTo_sameValue a p q (v w : Value) (type : VType) :
  stores a p (recordOf v) → (Z.of_nat (HSA.offset p) < 2 ^ 31)%Z →
  stores a q (recordOf w) → (Z.of_nat (HSA.offset q) < 2 ^ 31)%Z →
  ∃ equal, equalTo a p q type = Some equal ∧ (equal = true ↔ sameValue type v w).
Proof.
  intros (preP & suffixP & HstP) HoffP (preQ & suffixQ & HstQ) HoffQ.
  eexists. split.
  - by apply (equalTo_storesBetween a p q preP _ (serialize v) suffixP
                preQ _ (serialize w) suffixQ type HstP (length_hash_prefix v) HoffP
                HstQ (length_hash_prefix w) HoffQ).
  - rewrite compare_one_value. unfold sameValue. apply bool_decide_eq_true.
Qed.

End Roundtrip.

End WithCodec.

End AddressableNonNullValueListFacts.

(** ** The distinct-aggregation wrapper *)

Module DistinctAggregationsFacts.
Import DistinctAggregations.

Section Typed.
Context {Value Alloc Acc Other : Type}.
Context `{!Allocator Alloc} `{!SetAccumulator Value Alloc Acc}.

Abbreviation AggregateInfo := (@AggregateInfo Value Alloc Acc Other).
Abbreviation TypedDistinctAggregations := (@TypedDistinctAggregations Value Alloc Acc Other).
Abbreviation Store := (@Store Alloc Acc Other).
Implicit Types (this : TypedDistinctAggregations) (st : Store).

Lemma makeInputTypeForAccumulator_single inputType channel type :
  childAt inputType channel = Some type →
  makeInputTypeForAccumulator inputType [channel] = Some type.
Proof. intros Hc. unfold makeInputTypeForAccumulator. simpl. done. Qed.

Lemma makeInputTypeForAccumulator_multiple inputType (inputs : list nat) :
  length inputs ≠ 1 →
  resolves inputType inputs →
  ∃ names types,
    mapM (nameOf inputType) inputs = Some names ∧
    mapM (childAt inputType) inputs = Some types ∧
    makeInputTypeForAccumulator inputType inputs = Some (ROW_ names types).
Proof.
  intros Hlen Hres. unfold makeInputTypeForAccumulator.
  rewrite decide_False by done.
  assert (is_Some (mapM (nameOf inputType) inputs)) as [names Hn].
  { apply mapM_is_Some. eapply Forall_impl; [exact Hres|]. by intros ? [? ?]. }
  assert (is_Some (mapM (childAt inputType) inputs)) as [types Ht].
  { apply mapM_is_Some. eapply Forall_impl; [exact Hres|]. by intros ? [? ?]. }
  exists names, types. by rewrite Hn, Ht.
Qed.

Lemma construct_single T (aggregate : AggregateInfo) inputType channel type :
  inputs aggregate = [channel] →
  childAt inputType channel = Some type →
  ∃ this, construct T [aggregate] inputType = Ok this ∧
          elementType this = T ∧ inputType_ this = type ∧
          aggregates_ this = [aggregate] ∧ inputs_ this = [channel].
Proof.
  intros Hin Hc. unfold construct. simpl.
  rewrite Hin, (makeInputTypeForAccumulator_single _ _ _ Hc).
  eexists. split; [reflexivity|]. done.
Qed.

Lemma construct_multiple T (aggregate : AggregateInfo) inputType :
  length (inputs aggregate) ≠ 1 →
  resolves inputType (inputs aggregate) →
  ∃ this names types,
    construct T [aggregate] inputType = Ok this ∧
    elementType this = T ∧ inputType_ this = ROW_ names types ∧
    mapM (nameOf inputType) (inputs aggregate) = Some names ∧
    mapM (childAt inputType) (inputs aggregate) = Some types.
Proof.
  intros Hlen Hres. unfold construct. simpl.
  destruct (makeInputTypeForAccumulator_multiple _ _ Hlen Hres)
    as (names & types & Hn & Ht & ->).
  eexists _, names, types. split; [reflexivity|]. done.
Qed.

(** C6. The construction contract of the factory: [create] fails with no
    aggregate, with more than one, and with one whose declared inputs are
    empty; with exactly one aggregate that has at least one declared input
    it succeeds when the input types are supported. *)
Theorem create_contract (aggregates : list AggregateInfo) (inputType : Type_) :
  (aggregates = [] → create aggregates inputType = VeloxRuntimeError) ∧
  (1 < length aggregates → create aggregates inputType = VeloxRuntimeError) ∧
  (∀ aggregate,
     aggregates = [aggregate] → inputs aggregate = [] →
     create aggregates inputType = VeloxRuntimeError) ∧
  (∀ aggregate,
     aggregates = [aggregate] → inputs aggregate ≠ [] →
     supportedInputs inputType (inputs aggregate) →
     ∃ this, create aggregates inputType = Ok this).
Proof.
  repeat split.
  - by intros ->.
  - intros Hlen. unfold create. rewrite decide_False by lia. done.
  - intros aggregate -> Hin. unfold create. simpl. by rewrite decide_True.
  - intros aggregate -> Hne [Hres Hkind]. unfold create. simpl.
    rewrite decide_False by done.
    destruct (inputs aggregate) as [|channel rest] eqn:Hin; [done|].
    destruct rest as [|channel2 rest].
    + simpl. inversion Hres as [|? ? [_ [type Hc]] _]; subst.
      rewrite Hc. simpl.
      destruct (Hkind channel type eq_refl Hc) as [T HT].
      destruct (kind type); simpl in HT; try done; clear HT;
        match goal with
        | |- ∃ _, construct ?T' _ _ = _ =>
            destruct (construct_single T' aggregate inputType channel type Hin Hc)
              as (this & -> & _)
        end; eauto.
    + rewrite bool_decide_eq_false_2 by (simpl; lia). simpl.
      rewrite <- Hin in Hres.
      destruct (construct_multiple ComplexType aggregate inputType) as (this & ? & ? & -> & _);
        [rewrite Hin; simpl; lia|done|eauto].
Qed.

Lemma set_flag_idempotent (b mask : Z) :
  Z.land (Z.lor (Z.land (Z.lor b mask) 255) mask) 255 = Z.land (Z.lor b mask) 255.
Proof.
  rewrite Z.land_lor_distr_l, <- Z.land_assoc, Z.land_diag.
  rewrite <- Z.land_lor_distr_l, <- Z.lor_assoc, Z.lor_diag. done.
Qed.

Lemma flag_is_set (b mask : Z) :
  Z.land (Z.land (Z.lor b mask) 255) mask = Z.land mask 255.
Proof.
  apply Z.bits_inj'. intros n _.
  rewrite !Z.land_spec, Z.lor_spec.
  by destruct (Z.testbit b n), (Z.testbit mask n), (Z.testbit 255 n).
Qed.

Lemma initializedRow_idempotent this (row : GroupRow) :
  initializedRow this (initializedRow this row) = initializedRow this row.
Proof.
  unfold initializedRow. simpl. f_equal.
  rewrite list_alter_alter_eq. apply list_alter_ext; [|done].
  intros b _. apply set_flag_idempotent.
Qed.

(** The first loop of [initializeNewGroups]: every indicated row is
    initialized, the other rows and the allocator stay as they are. *)
Lemma initializeGroups_spec this (groups : list nat) (indices : list nat) st :
  (∀ i, i ∈ indices → ∃ group, groups !! i = Some group ∧ is_Some (rows st !! group)) →
  ∃ st1,
    forEach (initializeGroup this groups) st indices = Some st1 ∧
    allocator st1 = allocator st ∧
    (∀ i group, i ∈ indices → groups !! i = Some group →
       rows st1 !! group = initializedRow this <$> rows st !! group) ∧
    (∀ group, (∀ i, i ∈ indices → groups !! i ≠ Some group) →
       rows st1 !! group = rows st !! group).
Proof.
  revert st. induction indices as [|i indices IH]; intros st Hrows.
  - exists st. split; [done|]. split; [done|]. split; [|done].
    intros i group Hi. by apply elem_of_nil in Hi.
  - destruct (Hrows i) as (g & Hg & [row Hrow]); [by left|].
    set (st' := setRow st g (initializedRow this row) (allocator st)).
    destruct (IH st') as (st1 & Hloop & Halloc & Hin & Hout).
    { intros i' Hi'. destruct (Hrows i') as (g' & Hg' & Hrow'); [by right|].
      exists g'. split; [done|]. unfold st'. simpl.
      destruct (decide (g = g')) as [->|Hne].
      - rewrite lookup_insert_eq. eauto.
      - by rewrite lookup_insert_ne. }
    exists st1. split; [|split; [done|split]].
    + assert (initializeGroup this groups st i = Some st') as Hstep.
      { unfold initializeGroup. rewrite Hg. simpl. by rewrite Hrow. }
      cbn [forEach]. rewrite Hstep. exact Hloop.
    + intros i' group Hi' Hgroup.
      destruct (decide (Exists (λ k, groups !! k = Some group) indices)) as [Hex|Hnex].
      * apply Exists_exists in Hex as (k & Hk & Hgk).
        rewrite (Hin k group Hk Hgk). unfold st'. simpl.
        destruct (decide (g = group)) as [->|Hne].
        -- rewrite lookup_insert_eq, Hrow. simpl. by rewrite initializedRow_idempotent.
        -- by rewrite lookup_insert_ne.
      * assert (i' = i) as ->.
        { apply elem_of_cons in Hi' as [->|Hi']; [done|].
          exfalso. apply Hnex, Exists_exists. eauto. }
        assert (g = group) as -> by congruence.
        rewrite Hout.
        -- unfold st'. simpl. by rewrite lookup_insert_eq, Hrow.
        -- intros k Hk Hgk. apply Hnex, Exists_exists. eauto.
    + intros group Hnone. rewrite Hout.
      * unfold st'. simpl. rewrite lookup_insert_ne; [done|].
        intros ->. by apply (Hnone i); [left|].
      * intros k Hk. apply Hnone. by right.
Qed.

(** [initializeNewGroups] constructs a new accumulator in every indicated
    row and sets, in the row's byte at [nullByte_], the bits of [nullMask_]
    (what a set bit says of the slot is for the readers of the flag, which
    are not in this translation unit); the rows that are not indicated and
    the allocator stay as they are; afterwards the group initialization
    goes, with the same rows and indices, to every wrapped aggregate
    function in turn. *)
Theorem initializeNewGroups_spec this (groups : list nat) (indices : list nat) st :
  (∀ i, i ∈ indices → ∃ group, groups !! i = Some group ∧ is_Some (rows st !! group)) →
  ∃ st1,
    initializeNewGroups this groups indices st
    = Some (foldl (λ st aggregate,
                     Aggregate_initializeNewGroups (function aggregate) groups indices st)
                  st1 (aggregates_ this)) ∧
    allocator st1 = allocator st ∧
    (∀ i group, i ∈ indices → groups !! i = Some group →
       ∃ row row1,
         rows st !! group = Some row ∧ rows st1 !! group = Some row1 ∧
         accumulator row1 = Some (SetAccumulator_new (inputType_ this)) ∧
         nullFlags row1
           = alter (λ b, Z.land (Z.lor b (nullMask_ this)) 255) (nullByte_ this)
                   (nullFlags row) ∧
         rowSize row1 = rowSize row ∧ other row1 = other row ∧
         (nullByte_ this < length (nullFlags row) →
          ∃ b1, nullFlags row1 !! nullByte_ this = Some b1 ∧
                Z.land b1 (nullMask_ this) = Z.land (nullMask_ this) 255)) ∧
    (∀ group, (∀ i, i ∈ indices → groups !! i ≠ Some group) →
       rows st1 !! group = rows st !! group).
Proof.
  intros Hrows.
  destruct (initializeGroups_spec this groups indices st Hrows)
    as (st1 & Hloop & Halloc & Hin & Hout).
  exists st1. split; [|split; [done|split; [|done]]].
  - unfold initializeNewGroups. rewrite Hloop. done.
  - intros i group Hi Hg.
    destruct (Hrows i Hi) as (g & Hg' & [row Hrow]).
    assert (g = group) as -> by congruence.
    exists row, (initializedRow this row).
    rewrite (Hin i group Hi Hg), Hrow.
    repeat split; try done.
    intros Hlen. unfold initializedRow. simpl.
    destruct (lookup_lt_is_Some_2 (nullFlags row) (nullByte_ this) Hlen) as [b Hb].
    rewrite list_lookup_alter_eq, Hb. simpl.
    eexists. split; [reflexivity|]. apply flag_is_set.
Qed.

(** C7. Type dispatch: with one declared input column [create] selects the
    specialization of the column's kind, the complex-element one for array,
    map and row columns, and none for a kind outside of the switch; with
    more than one declared input column it selects the complex-element
    specialization; the functions that step the object leave the selected
    element type as it is. *)
Theorem create_dispatch (aggregate : AggregateInfo) (inputType : Type_) :
  (∀ channel type T,
     inputs aggregate = [channel] →
     childAt inputType channel = Some type →
     specializationBySpec (kind type) = Some T →
     ∃ this, create [aggregate] inputType = Ok this ∧ elementType this = T) ∧
  (∀ channel type,
     inputs aggregate = [channel] →
     childAt inputType channel = Some type →
     specializationBySpec (kind type) = None →
     create [aggregate] inputType = VeloxRuntimeError) ∧
  (1 < length (inputs aggregate) →
   resolves inputType (inputs aggregate) →
   ∃ this, create [aggregate] inputType = Ok this ∧ elementType this = ComplexType) ∧
  (∀ this groups input rows st this' st',
     addInput this groups input rows st = Some (this', st') →
     elementType this' = elementType this) ∧
  (∀ this group input rows st this' st',
     addSingleGroupInput this group input rows st = Some (this', st') →
     elementType this' = elementType this).
Proof.
  split; [|split; [|split; [|split]]].
  - intros channel type T Hin Hc HT. unfold create. simpl.
    rewrite Hin. simpl. rewrite Hc. simpl.
    destruct (kind type); simpl in HT; try done; simplify_eq;
      match goal with
      | |- ∃ _, construct ?T' _ _ = _ ∧ _ =>
          destruct (construct_single T' aggregate inputType channel type Hin Hc)
            as (this & -> & HT' & _)
      end; eauto.
  - intros channel type Hin Hc HT. unfold create. simpl.
    rewrite Hin. simpl. rewrite Hc. simpl.
    by destruct (kind type).
  - intros Hlen Hres. unfold create. simpl.
    rewrite decide_False by (intros Hin; rewrite Hin in Hlen; simpl in Hlen; lia).
    rewrite bool_decide_eq_false_2 by lia. simpl.
    destruct (construct_multiple ComplexType aggregate inputType)
      as (this & ? & ? & -> & HT & _); [lia|done|eauto].
  - intros this groups input rows st this' st' Hadd. unfold addInput in Hadd.
    destruct (decodeInput this input rows) as [this1|] eqn:Hdec; [|done].
    simpl in Hadd. destruct (decodedInput_ this1); [|done]. simpl in Hadd.
    destruct (forEach _ st (selected rows)); [|done]. simpl in Hadd.
    inversion Hadd; subst. simpl.
    unfold decodeInput in Hdec.
    destruct (makeInputForAccumulator this input); [|done].
    by inversion Hdec.
  - intros this group input rows st this' st' Hadd. unfold addSingleGroupInput in Hadd.
    destruct (decodeInput this input rows) as [this1|] eqn:Hdec; [|done].
    simpl in Hadd. destruct (decodedInput_ this1); [|done]. simpl in Hadd.
    destruct (accumulatorOf st group) as [[row acc]|]; [|done]. simpl in Hadd.
    destruct (foldl _ _ _) as [acc' a']. inversion Hadd; subst. simpl.
    unfold decodeInput in Hdec.
    destruct (makeInputForAccumulator this input); [|done].
    by inversion Hdec.
Qed.

Lemma accumulatorOf_Some st (group : nat) row acc :
  accumulatorOf st group = Some (row, acc) ↔
  rows st !! group = Some row ∧ accumulator row = Some acc.
Proof.
  unfold accumulatorOf. split.
  - intros Hacc. destruct (rows st !! group) as [row'|]; [|done]. simpl in Hacc.
    destruct (accumulator row') as [acc'|] eqn:E; [|done]. simpl in Hacc.
    by inversion Hacc; subst.
  - intros [-> Hacc]. simpl. by rewrite Hacc.
Qed.




Section SpillContract.

(** What the uniqueness set promises about its spill functions:
    [extractForSpill] writes no more than [maxSpillSize] bytes, and a set
    that was cleared has no element. *)
Hypothesis extractForSpill_within :
  ∀ (acc : Acc) capacity,
    length (SetAccumulator_extractForSpill acc capacity) ≤ maxSpillSize acc.
Hypothesis clear_size :
  ∀ (a : Alloc) (acc : Acc), SetAccumulator_size (clear a acc).1 = 0.




End SpillContract.

(** The indicated cell of the spill column has no part in what
    [addSingleGroupSpillInput] does. *)
Lemma spillInput_any_index this (group : nat) offsets sizes elementsVector (i : nat) st :
  i < length sizes → i < length offsets →
  addSingleGroupSpillInput this group
    (ArrayVector offsets sizes (FlatVectorOfStringView elementsVector)) i st
  = '(row, acc) ← accumulatorOf st group;
    Some (setRow st group
            (setAccumulator row (Some (addFromSpill elementsVector (allocator st) acc).1))
            (addFromSpill elementsVector (allocator st) acc).2).
Proof.
  intros Hi1 Hi2. unfold addSingleGroupSpillInput.
  destruct (lookup_lt_is_Some_2 sizes i Hi1) as [? ->].
  destruct (lookup_lt_is_Some_2 offsets i Hi2) as [? ->].
  simpl.
  destruct (accumulatorOf st group) as [[row acc]|]; [|done]. simpl.
  by destruct (addFromSpill elementsVector (allocator st) acc).
Qed.

(** C10. The state [addSingleGroupSpillInput] leaves behind is the same for
    any two indices of the spill column: the size and the offset of the
    indicated cell are read and go unused, and the whole elements vector
    goes to [addFromSpill]. *)
Theorem addSingleGroupSpillInput_index this (group : nat) offsets sizes elementsVector
    (i j : nat) st :
  i < length sizes → i < length offsets →
  j < length sizes → j < length offsets →
  addSingleGroupSpillInput this group
    (ArrayVector offsets sizes (FlatVectorOfStringView elementsVector)) i st
  = addSingleGroupSpillInput this group
      (ArrayVector offsets sizes (FlatVectorOfStringView elementsVector)) j st
  ∧
  addSingleGroupSpillInput this group
    (ArrayVector offsets sizes (FlatVectorOfStringView elementsVector)) i st
  = '(row, acc) ← accumulatorOf st group;
    Some (setRow st group
            (setAccumulator row (Some (addFromSpill elementsVector (allocator st) acc).1))
            (addFromSpill elementsVector (allocator st) acc).2).
Proof.
  intros Hi1 Hi2 Hj1 Hj2.
  rewrite !spillInput_any_index by done. done.
Qed.

Lemma length_offsetsFrom offset (sizes : list nat) :
  length (offsetsFrom offset sizes) = length sizes.
Proof.
  revert offset. induction sizes as [|size sizes IH]; intros offset; [done|].
  simpl. by rewrite IH.
Qed.

(** The column [extractForSpill] produces has one cell per group and a
    single string of elements, shared by the cells. *)
Lemma extractForSpill_column this (groups : list nat) result st column st' :
  extractForSpill this groups result st = Some (column, st') →
  ∃ offsets sizes spilled,
    column = ArrayVector offsets sizes (FlatVectorOfStringView [spilled]) ∧
    length offsets = length groups ∧ length sizes = length groups.
Proof.
  unfold extractForSpill. intros Hex.
  destruct result as [| | |? ? elements]; try done.
  destruct elements; try done.
  destruct (mapM _ groups) as [accumulators|] eqn:Hm; [|done]. simpl in Hex.
  destruct (forEach _ _ groups) as [[[offset rawBuffer] st1]|]; [|done].
  simpl in Hex. inversion Hex; subst.
  eexists _, _, _. split; [reflexivity|].
  apply length_mapM in Hm.
  by rewrite length_offsetsFrom, !length_fmap.
Qed.

(** What is restored from a spill column does not depend on the group
    whose cell is indicated: the results extracted after restoring any two
    cells of the column into the same new row are the same. *)
Lemma restore_ignores_group this (groups : list nat) result st column st'
    (newGroup : nat) (i j : nat) stNew out :
  extractForSpill this groups result st = Some (column, st') →
  i < length groups → j < length groups →
  (st ← addSingleGroupSpillInput this newGroup column i stNew;
   extractValues this [newGroup] out st)
  = (st ← addSingleGroupSpillInput this newGroup column j stNew;
     extractValues this [newGroup] out st).
Proof.
  intros Hex Hi Hj.
  destruct (extractForSpill_column _ _ _ _ _ _ Hex)
    as (offsets & sizes & spilled & -> & Hoffsets & Hsizes).
  rewrite !spillInput_any_index by lia. done.
Qed.

(** So, when two groups of one spill column have different results, the
    results restored from their cells cannot both be theirs. *)
Lemma restore_cannot_match_both this (groups : list nat) result st column st'
    (newGroup : nat) (i j : nat) stNew out (resultI resultJ : option (Vector Value * Store)) :
  extractForSpill this groups result st = Some (column, st') →
  i < length groups → j < length groups →
  resultI ≠ resultJ →
  ¬ ((st ← addSingleGroupSpillInput this newGroup column i stNew;
      extractValues this [newGroup] out st) = resultI ∧
     (st ← addSingleGroupSpillInput this newGroup column j stNew;
      extractValues this [newGroup] out st) = resultJ).
Proof.
  intros Hex Hi Hj Hne [HI HJ]. apply Hne. rewrite <- HI, <- HJ.
  by eapply restore_ignores_group.
Qed.

End Typed.

End DistinctAggregationsFacts.

(** ** The properties on the instances *)

Module Scenarios.
Import Bytes ContainerRowSerde Fixtures.
Import AddressableNonNullValueList AddressableNonNullValueListFacts.

Lemma tinyint_hash_is_uint64 (v : byte) : (hashValueAt v < uint64_max)%N.
Proof. by destruct v. Qed.

Lemma tinyint_deserialize_serialize (v : byte) rest :
  deserialize (serialize v ++ rest) = Some v.
Proof. reflexivity. Qed.

Lemma tinyint_compare_refl (type : Type_) (v : byte) : sameValue type v v.
Proof. unfold sameValue. simpl. lia. Qed.

Lemma twoRecords_appended :
  appendAll [x05; x07] = Some ([firstRecord; secondRecord], twoRecords.1, twoRecords.2).
Proof. by vm_compute. Qed.

Lemma fourRecords_appended :
  ∃ positions,
    appendAll [x05; x07; x09; x0a] = Some (positions, fourRecords.1, fourRecords.2).
Proof. eexists. by vm_compute. Qed.

Lemma fourRecords_valid : valid fourRecords.1 fourRecords.2.
Proof. eexists. split; [reflexivity|]. split; [done|reflexivity]. Qed.

(** The fifth value of a list goes to the bytes 36 to 44 of the chain: its
    hash fills the first block of 44 bytes, its payload opens the next
    block. *)
Lemma readHash_append_witness :
  ∃ p l' a',
    append fourRecords.1 (tinyints [x0b]) 0 fourRecords.2 = Some (p, l', a') ∧
    readHash a' p = Some 11%N.
Proof.
  change 11%N with (hashValueAt x0b).
  apply (readHash_append fourRecords.1 (tinyints [x0b]) 0 fourRecords.2 0 x0b).
  - exact fourRecords_valid.
  - reflexivity.
  - reflexivity.
  - apply tinyint_hash_is_uint64.
  - intros _. vm_compute. reflexivity.
Defined.

Lemma read_append_witness :
  ∃ p l' a' result' v',
    append fourRecords.1 (tinyints [x0b]) 0 fourRecords.2 = Some (p, l', a') ∧
    read a' p [x00] 0 = Some result' ∧
    result' !! 0 = Some v' ∧
    sameValue tinyint v' x0b.
Proof.
  apply (read_append tinyint_deserialize_serialize tinyint_compare_refl
           fourRecords.1 (tinyints [x0b]) 0 fourRecords.2 0 x0b [x00] 0 tinyint).
  - exact fourRecords_valid.
  - reflexivity.
  - reflexivity.
  - intros _. vm_compute. reflexivity.
  - simpl. lia.
Defined.

Lemma secondRecord_storesBetween :
  storesBetween twoRecords.2 secondRecord
    (recordOf x05) (le_encode sizeof_uint64 7 ++ [x07]) [].
Proof. split; reflexivity. Qed.

Lemma record_shape_witness :
  readHash twoRecords.2 secondRecord = Some 7%N ∧
  read twoRecords.2 secondRecord [x00] 0 = Some [x07].
Proof.
  destruct (proj2 (record_shape tinyint) twoRecords.2 secondRecord
              (recordOf x05) (le_encode sizeof_uint64 7) [x07] []
              secondRecord_storesBetween eq_refl eq_refl)
    as (Hhash & Hread & _).
  split; [exact Hhash|]. rewrite Hread. reflexivity.
Defined.

(** [copySerializedTo] fails exactly when the capacity is below what
    [getSerializedSize] reports; otherwise it returns that size. *)
Lemma copySerializedTo_fails_iff a p n buffer capacity :
  getSerializedSize a p = Some n →
  (copySerializedTo a p buffer capacity = Some VeloxRuntimeError ↔ capacity < n) ∧
  (n ≤ capacity → ∃ buffer', copySerializedTo a p buffer capacity = Some (Ok (n, buffer'))).
Proof.
  unfold getSerializedSize. intros Hn.
  destruct (prepareRead a p false) as [s|] eqn:Hs; [|done].
  simpl in Hn. inversion Hn; subst. unfold HSA.size.
  destruct (copySerializedTo_stream a p s Hs) as [_ Hcopy].
  rewrite Hcopy. split.
  - case_decide; split; try done; lia.
  - intros Hle. rewrite decide_False by lia. eauto.
Qed.

(** C5, at the failing input. After the values 5 and 7 were appended, the
    record of 7 is at offset 9 and has 9 bytes, its hash and its one byte of
    payload. [getSerializedSize] reports the 18 bytes of the chain; a
    buffer of 9 bytes is refused; and a buffer of 20 bytes receives the 18
    bytes of the chain from its start, the record of 5 first. *)
Theorem copySerializedTo_second_record :
  appendAll [x05; x07] = Some ([firstRecord; secondRecord], twoRecords.1, twoRecords.2) ∧
  stores twoRecords.2 secondRecord (recordOf x07) ∧
  length (recordOf x07) = 9 ∧
  getSerializedSize twoRecords.2 secondRecord = Some 18 ∧
  copySerializedTo twoRecords.2 secondRecord (replicate 9 xff) 9 = Some VeloxRuntimeError ∧
  copySerializedTo twoRecords.2 secondRecord (replicate 20 xff) 20
  = Some (Ok (18, recordOf x05 ++ recordOf x07 ++ [xff; xff])).
Proof.
  split; [exact twoRecords_appended|].
  split; [|by vm_compute].
  exists (recordOf x05), []. split; reflexivity.
Qed.

(** C4, at the failing input. After the values 5 and 7 were appended,
    [readHash] and [read] at the position of the record of 7 give the hash
    of 7 and the value 7; [getSerializedSize] reports there what it reports
    at the position of the record of 5, which is more than the 9 bytes of
    the record; and [copySerializedTo] there, whatever the capacity, either
    fails or copies a range that starts with the record of 5, so that the
    first 9 bytes of the copy are not the record of 7. *)
Theorem accessors_second_record :
  stores twoRecords.2 secondRecord (recordOf x07) ∧
  length (recordOf x07) = 9 ∧
  readHash twoRecords.2 secondRecord = Some (hashValueAt x07) ∧
  read twoRecords.2 secondRecord [x00] 0 = Some [x07] ∧
  getSerializedSize twoRecords.2 secondRecord = getSerializedSize twoRecords.2 firstRecord ∧
  (∃ n, getSerializedSize twoRecords.2 secondRecord = Some n ∧ 9 < n) ∧
  ∀ destination capacity,
    copySerializedTo twoRecords.2 secondRecord destination capacity = Some VeloxRuntimeError ∨
    ∃ n copy,
      copySerializedTo twoRecords.2 secondRecord destination capacity = Some (Ok (n, copy)) ∧
      take 9 copy = recordOf x05 ∧
      take 9 copy ≠ recordOf x07.
Proof.
  split; [exists (recordOf x05), []; split; reflexivity|].
  split; [reflexivity|]. split; [reflexivity|]. split; [reflexivity|].
  split; [reflexivity|]. split; [exists 18; split; [reflexivity|lia]|].
  intros destination capacity.
  assert (prepareRead twoRecords.2 secondRecord false
          = Some {| HSA.bytes := recordOf x05 ++ recordOf x07; HSA.cursor := 9 |}) as Hs
    by reflexivity.
  destruct (copySerializedTo_stream twoRecords.2 secondRecord _ Hs) as [_ Hcopy].
  rewrite Hcopy. case_decide; [by left|]. right.
  eexists _, _. split; [reflexivity|]. split; [reflexivity|]. discriminate.
Qed.

Import DistinctAggregations DistinctAggregationsFacts.

Lemma inputType_supported : supportedInputs inputType (inputs countInfo).
Proof.
  split.
  - apply Forall_singleton. split; eexists; reflexivity.
  - intros channel type Hin Hc. simpl in Hin. inversion Hin; subst.
    inversion Hc; subst. simpl. eauto.
Qed.

Lemma create_contract_witness :
  ∃ this, create [countInfo] inputType = Ok this.
Proof.
  apply (proj2 (proj2 (proj2 (create_contract [countInfo] inputType))) countInfo).
  - reflexivity.
  - discriminate.
  - exact inputType_supported.
Defined.

Lemma create_dispatch_witness :
  ∃ this, create [countInfo] inputType = Ok this ∧ elementType this = int64_t.
Proof.
  apply (proj1 (create_dispatch countInfo inputType) 0 bigint int64_t);
    reflexivity.
Defined.

Lemma threeRows_indicated (i : nat) :
  i ∈ [0; 1] →
  ∃ group, [100; 200] !! i = Some group ∧ is_Some (rows threeRows !! group).
Proof.
  intros Hi. apply elem_of_cons in Hi as [->|Hi].
  - exists 100. split; [reflexivity|]. by eexists.
  - apply list_elem_of_singleton in Hi as ->.
    exists 200. split; [reflexivity|]. by eexists.
Qed.

Lemma initializeNewGroups_spec_witness :
  ∃ st1,
    initializeNewGroups countDistinct [100; 200] [0; 1] threeRows
    = Some (foldl (λ st aggregate,
                     Aggregate_initializeNewGroups (function aggregate) [100; 200] [0; 1] st)
                  st1 (aggregates_ countDistinct)) ∧
    ∃ row1,
      rows st1 !! 200 = Some row1 ∧
      accumulator row1 = Some Int64Set_empty ∧
      nullFlags row1 = [1%Z].
Proof.
  destruct (initializeNewGroups_spec countDistinct [100; 200] [0; 1] threeRows
              threeRows_indicated)
    as (st1 & Hinit & _ & Hin & _).
  exists st1. split; [exact Hinit|].
  destruct (Hin 1 200) as (row & row1 & Hrow & Hrow1 & Hacc & Hflags & _).
  { set_solver. }
  { reflexivity. }
  exists row1. split; [exact Hrow1|]. split; [exact Hacc|].
  assert (row = newRow) as -> by (vm_compute in Hrow; inversion Hrow; reflexivity).
  exact Hflags.
Defined.




Lemma fedGroups_fedStore : fedGroups = Some fedStore.
Proof. by vm_compute. Qed.



Lemma addSingleGroupSpillInput_index_witness :
  addSingleGroupSpillInput countDistinct 100 spillColumn 0 fedStore
  = addSingleGroupSpillInput countDistinct 100 spillColumn 1 fedStore.
Proof.
  unfold spillColumn.
  refine (proj1 (addSingleGroupSpillInput_index countDistinct 100 _ _ _ 0 1 fedStore
                   _ _ _ _)); simpl; lia.
Defined.

(** C1, at the failing input. The groups A, with the values 5, 5, 7, 5, and
    B, with the value 7, count 2 and 1 distinct values when they are not
    spilled. When the two are spilled by one [extractForSpill], the column
    is [spillColumn], and a new group restored from it counts 2 distinct
    values whether the cell of A or the cell of B is indicated. *)
Theorem spill_restore_mixes_groups :
  unspilled = Some (RowVector 2 [FlatVector [Some 2; Some 1]]%Z) ∧
  (fedGroups ≫= λ st, fst <$> extractForSpill countDistinct [100; 200] emptySpillColumn st)
    = Some spillColumn ∧
  restored 0 = Some (RowVector 1 [FlatVector [Some 2]]%Z) ∧
  restored 1 = Some (RowVector 1 [FlatVector [Some 2]]%Z).
Proof. by vm_compute. Qed.

End Scenarios.

(** * Further properties of the two files *)

(** ** The value list: bookkeeping, stability of positions, copies *)

Module AddressableNonNullValueListMore.
Import Bytes BytesFacts ContainerRowSerde HashStringAllocatorFacts.
Import AddressableNonNullValueList AddressableNonNullValueListFacts.

(** What [readHash] returns at a position are eight bytes stored there. *)
Lemma readHash_Some_stores a q h :
  readHash a q = Some h →
  (Z.of_nat (HSA.offset q) < 2 ^ 31)%Z →
  ∃ hash8, stores a q hash8 ∧ length hash8 = sizeof_uint64 ∧ le_decode hash8 = h.
Proof.
  unfold readHash, prepareRead. intros Hread Hoff.
  destruct (HSA.prepareRead a (HSA.header q)) as [s|] eqn:Hs; [|done].
  simpl in Hread. rewrite to_int32_small in Hread by done.
  rewrite decide_False in Hread by lia. rewrite Nat2Z.id in Hread.
  unfold HSA.read_uint64, HSA.readBytes, HSA.remaining, HSA.seekp in Hread.
  simpl in Hread. case_decide as Hfit; [|done]. simpl in Hread.
  inversion Hread; subst.
  apply prepareRead_Some in Hs as (c & Hc & Hb & ->). simpl in *.
  set (stream := HSA.streamFrom (HSA.blockOf (HSA.header q)) c) in *.
  exists (take sizeof_uint64 (drop (HSA.offset q) stream)).
  split; [|split; [|done]].
  - exists (take (HSA.offset q) stream),
           (drop sizeof_uint64 (drop (HSA.offset q) stream)).
    split.
    + rewrite (prepareRead_intro a (HSA.header q) c Hc Hb). fold stream.
      by rewrite !take_drop.
    + rewrite length_take. lia.
  - rewrite length_take, length_drop. lia.
Qed.

(** X1. Positions are not invalidated by later writes: the hash read at a
    position before an [appendSerialized] or an [append] to a list is the
    hash read there afterwards. *)
Theorem readHash_stable l a q h :
  valid l a →
  readHash a q = Some h →
  (Z.of_nat (HSA.offset q) < 2 ^ 31)%Z →
  (∀ buffer p l' a',
     appendSerialized l a buffer = Some (p, l', a') → readHash a' q = Some h) ∧
  (∀ Value VType (codec : ValueCodec Value VType)
     (decoded : DecodedVector (list Value)) index p l' a',
     append l decoded index a = Some (p, l', a') → readHash a' q = Some h).
Proof.
  intros Hvalid Hread Hoff.
  destruct (readHash_Some_stores a q h Hread Hoff) as (hash8 & Hst & Hlen & <-).
  assert (∀ buffer p l' a',
            appendSerialized l a buffer = Some (p, l', a') →
            readHash a' q = Some (le_decode hash8)) as Hser.
  { intros buffer p l' a' Happ.
    destruct (appendSerialized_spec l a buffer Hvalid)
      as (p0 & l0 & a0 & Happ0 & _ & _ & _ & _ & _ & _ & Hstable).
    assert (a0 = a') as -> by congruence.
    apply (readHash_stores a' q hash8 []); [|done|done].
    rewrite app_nil_r. by apply Hstable. }
  split; [exact Hser|].
  intros Value VType codec decoded index p l' a' Happ.
  destruct (DecodedVector_index decoded index) as [i|] eqn:Hi.
  - destruct (base decoded !! i) as [v|] eqn:Hv.
    + rewrite (append_appendSerialized l decoded index a i v Hi Hv) in Happ.
      by eapply Hser.
    + unfold append in Happ. destruct (makeOutputStream l a) as [[? ?] ?].
      rewrite Hi in Happ. simpl in Happ. by rewrite Hv in Happ.
  - unfold append in Happ. destruct (makeOutputStream l a) as [[? ?] ?].
    by rewrite Hi in Happ.
Qed.

(** X3. Right after a buffer is appended, [getSerializedSize] at the
    returned position reports a size that reaches at least to the end of
    the buffer, counted from the start of the position's block, and not the
    length of the buffer; [copySerializedTo] fails below this size and,
    from it on, copies a range in which the buffer lies at the offset of
    the position. *)
Theorem getSerializedSize_after_appendSerialized l a buffer :
  valid l a →
  (is_Some (firstHeader_ l) → (Z.of_nat (HSA.offset (currentPosition_ l)) < 2 ^ 31)%Z) →
  ∃ p l' a' n copied,
    appendSerialized l a buffer = Some (p, l', a') ∧
    getSerializedSize a' p = Some n ∧
    HSA.offset p + length buffer ≤ n ∧
    length copied = n ∧
    take (length buffer) (drop (HSA.offset p) copied) = buffer ∧
    ∀ destination capacity,
      (capacity < n →
       copySerializedTo a' p destination capacity = Some VeloxRuntimeError) ∧
      (n ≤ capacity →
       copySerializedTo a' p destination capacity
       = Some (Ok (n, copied ++ drop n destination))).
Proof.
  intros Hvalid Hsmall.
  destruct (appendSerialized_spec l a buffer Hvalid)
    as (p & l' & a' & Happ & _ & _ & _ & Hcur & Hzero & (pre & Hread & Hlen) & _).
  assert (Z.of_nat (HSA.offset p) < 2 ^ 31)%Z as Hoff by (by eapply offset_of_append).
  assert (storesBetween a' p pre buffer []) as Hst
    by (split; [by rewrite app_nil_r|done]).
  pose proof (prepareRead_stores a' p _ _ _ false Hst Hoff) as Hprep.
  destruct (copySerializedTo_stream a' p _ Hprep) as [Hsize Hcopy].
  cbn [HSA.bytes] in Hsize, Hcopy.
  exists p, l', a', (length (pre ++ buffer ++ [])), (pre ++ buffer ++ []).
  split; [done|]. split; [done|]. split; [rewrite !length_app; lia|].
  split; [done|]. split.
  - rewrite <- Hlen, drop_app_length. by rewrite take_app_length.
  - intros destination capacity. rewrite Hcopy.
    split; intros Hcap; [by rewrite decide_True by done|by rewrite decide_False by lia].
Qed.

(** X5. The contract of [copySerializedTo] with [getSerializedSize]: where
    [getSerializedSize] reports a size, [copySerializedTo] fails exactly
    when the capacity is below it, and otherwise returns this size and
    leaves the destination as it was beyond the bytes it copied; where
    [getSerializedSize] reports none, there is nothing to copy. *)
Theorem copySerializedTo_contract a p destination capacity :
  (∀ n,
     getSerializedSize a p = Some n →
     (copySerializedTo a p destination capacity = Some VeloxRuntimeError ↔ capacity < n) ∧
     (n ≤ capacity →
      ∃ copied,
        length copied = n ∧
        copySerializedTo a p destination capacity
        = Some (Ok (n, copied ++ drop n destination)))) ∧
  (getSerializedSize a p = None → copySerializedTo a p destination capacity = None).
Proof.
  unfold getSerializedSize. split.
  - intros n Hn.
    destruct (prepareRead a p false) as [s|] eqn:Hs; [|done].
    simpl in Hn. inversion Hn; subst. unfold HSA.size.
    destruct (copySerializedTo_stream a p s Hs) as [_ Hcopy].
    rewrite Hcopy. split.
    + case_decide; split; try done; lia.
    + intros Hle. rewrite decide_False by lia. eauto.
  - unfold copySerializedTo.
    by destruct (prepareRead a p false).
Qed.

Section WithCodec.
Context {Value VType : Type} `{!ValueCodec Value VType}.

(** X2. What [appendSerialized] stores can be read back: after a buffer
    made of eight bytes and a payload is appended, [readHash] at the
    returned position decodes the eight bytes and [read] deserializes the
    payload. *)
Theorem appendSerialized_readback l a hash8 payload :
  valid l a →
  length hash8 = sizeof_uint64 →
  (is_Some (firstHeader_ l) → (Z.of_nat (HSA.offset (currentPosition_ l)) < 2 ^ 31)%Z) →
  ∃ p l' a',
    appendSerialized l a (hash8 ++ payload) = Some (p, l', a') ∧
    readHash a' p = Some (le_decode hash8) ∧
    ∀ (result : list Value) k,
      read a' p result k = v ← deserialize payload; Some (<[k := v]> result).
Proof.
  intros Hvalid Hlen Hsmall.
  destruct (appendSerialized_spec l a (hash8 ++ payload) Hvalid)
    as (p & l' & a' & Happ & _ & _ & _ & Hcur & Hzero & (pre & Hread & Hpre) & _).
  assert (Z.of_nat (HSA.offset p) < 2 ^ 31)%Z as Hoff by (by eapply offset_of_append).
  assert (storesBetween a' p pre (hash8 ++ payload) []) as Hst
    by (split; [by rewrite app_nil_r|done]).
  exists p, l', a'. split; [done|]. split.
  - by eapply readHash_storesBetween.
  - intros result k.
    rewrite (read_storesBetween a' p pre hash8 payload [] result k Hst Hlen Hoff).
    by rewrite app_nil_r.
Qed.


Section Codec.

(** The codec reads back what it wrote, whatever follows in the stream,
    and its comparison reads one value from each stream. *)
Hypothesis deserialize_serialize :
  ∀ (v : Value) rest, deserialize (serialize v ++ rest) = Some v.
Hypothesis compare_one_value :
  ∀ (type : VType) flags (v w : Value) restV restW,
    compare (serialize v ++ restV) (serialize w ++ restW) type flags
    = compare (serialize v) (serialize w) type flags.

(** X8. A value stays readable: a value stored at a position is read back
    from it after any later [appendSerialized] to a list. *)
Theorem read_stable l a q (v : Value) buffer p l' a' (result : list Value) k :
  valid l a →
  stores a q (recordOf v) →
  (Z.of_nat (HSA.offset q) < 2 ^ 31)%Z →
  appendSerialized l a buffer = Some (p, l', a') →
  read a' q result k = Some (<[k := v]> result).
Proof.
  intros Hvalid Hst Hoff Happ.
  destruct (appendSerialized_spec l a buffer Hvalid)
    as (p0 & l0 & a0 & Happ0 & _ & _ & _ & _ & _ & _ & Hstable).
  assert (a0 = a') as -> by congruence.
  destruct (Hstable q _ Hst) as (pre & suffix & Hst').
  rewrite (read_storesBetween a' q pre _ (serialize v) suffix result k Hst'
             (length_hash_prefix v) Hoff).
  by rewrite deserialize_serialize.
Qed.

(** X6. Two values appended one after the other: [equalTo] on their
    positions tells whether the codec's comparison finds them equal. *)
Theorem equalTo_appended l a (decoded : DecodedVector (list Value))
    indexV indexW iV iW v w (type : VType) p l1 a1 q l2 a2 :
  valid l a →
  DecodedVector_index decoded indexV = Some iV → base decoded !! iV = Some v →
  DecodedVector_index decoded indexW = Some iW → base decoded !! iW = Some w →
  append l decoded indexV a = Some (p, l1, a1) →
  append l1 decoded indexW a1 = Some (q, l2, a2) →
  (Z.of_nat (HSA.offset p) < 2 ^ 31)%Z →
  (Z.of_nat (HSA.offset q) < 2 ^ 31)%Z →
  ∃ equal, equalTo a2 p q type = Some equal ∧ (equal = true ↔ sameValue type v w).
Proof.
  intros Hvalid HiV HvV HiW HvW HappV HappW HoffP HoffQ.
  destruct (append_spec l decoded indexV a iV v Hvalid HiV HvV)
    as (p0 & l0 & a0 & HappV0 & Hvalid1 & _ & _ & _ & HstV & _).
  rewrite HappV in HappV0. inversion HappV0; subst p0 l0 a0.
  destruct (append_spec l1 decoded indexW a1 iW w Hvalid1 HiW HvW)
    as (q0 & l0 & a0 & HappW0 & _ & _ & _ & _ & HstW & Hstable).
  rewrite HappW in HappW0. inversion HappW0; subst q0 l0 a0.
  apply (equalTo_sameValue compare_one_value a2 p q v w type); auto.
Qed.

(** X4. Relocating a record: after a value is appended to a list,
    [copySerializedTo] with the capacity [getSerializedSize] asks for copies
    a range in which the record of the value, hash included, lies at the
    offset of the position; and these bytes of the copy, appended to a list
    by [appendSerialized], read back as the hash and the value. *)
Theorem relocate_record l a (decoded : DecodedVector (list Value)) index i v :
  valid l a →
  (is_Some (firstHeader_ l) → (Z.of_nat (HSA.offset (currentPosition_ l)) < 2 ^ 31)%Z) →
  DecodedVector_index decoded index = Some i →
  base decoded !! i = Some v →
  (hashValueAt v < uint64_max)%N →
  ∃ p l1 a1 n,
    append l decoded index a = Some (p, l1, a1) ∧
    getSerializedSize a1 p = Some n ∧
    ∀ destination capacity,
      n ≤ capacity →
      ∃ copy,
        copySerializedTo a1 p destination capacity = Some (Ok (n, copy)) ∧
        take (length (recordOf v)) (drop (HSA.offset p) copy) = recordOf v ∧
        ∀ l2,
          valid l2 a1 →
          (is_Some (firstHeader_ l2) →
           (Z.of_nat (HSA.offset (currentPosition_ l2)) < 2 ^ 31)%Z) →
          ∃ p2 l2' a2,
            appendSerialized l2 a1
              (take (length (recordOf v)) (drop (HSA.offset p) copy))
              = Some (p2, l2', a2) ∧
            readHash a2 p2 = Some (hashValueAt v) ∧
            ∀ (result : list Value) k,
              read a2 p2 result k = Some (<[k := v]> result).
Proof.
  intros Hvalid Hsmall Hi Hv Hhash.
  destruct (appendSerialized_spec l a (recordOf v) Hvalid)
    as (p & l1 & a1 & Happ & _ & _ & _ & Hcur & Hzero & (pre & Hread & Hpre) & _).
  assert (Z.of_nat (HSA.offset p) < 2 ^ 31)%Z as Hoff by (by eapply offset_of_append).
  assert (storesBetween a1 p pre (recordOf v) []) as Hst
    by (split; [by rewrite app_nil_r|done]).
  pose proof (prepareRead_stores a1 p _ _ _ false Hst Hoff) as Hprep.
  destruct (copySerializedTo_stream a1 p _ Hprep) as [Hsize Hcopy].
  cbn [HSA.bytes] in Hsize, Hcopy.
  exists p, l1, a1, (length (pre ++ recordOf v ++ [])).
  split; [by rewrite (append_appendSerialized l decoded index a i v)|].
  split; [done|]. intros destination capacity Hfit.
  eexists. split; [rewrite Hcopy, decide_False by lia; reflexivity|].
  assert (take (length (recordOf v))
            (drop (HSA.offset p)
               ((pre ++ recordOf v ++ [])
                ++ drop (length (pre ++ recordOf v ++ [])) destination))
          = recordOf v) as Hslice.
  { rewrite <- Hpre, <- !app_assoc, drop_app_length. by rewrite take_app_length. }
  rewrite Hslice. split; [done|].
  intros l2 Hvalid2 Hsmall2.
  destruct (appendSerialized_spec l2 a1 (recordOf v) Hvalid2)
    as (p2 & l2' & a2 & Happ2 & _ & _ & _ & Hcur2 & Hzero2 & (pre2 & Hread2 & Hpre2) & _).
  assert (Z.of_nat (HSA.offset p2) < 2 ^ 31)%Z as Hoff2 by (by eapply offset_of_append).
  assert (storesBetween a2 p2 pre2 (recordOf v) []) as Hst2
    by (split; [by rewrite app_nil_r|done]).
  exists p2, l2', a2. split; [done|]. split.
  - rewrite (readHash_storesBetween a2 p2 pre2 _ (serialize v) [] Hst2
               (length_hash_prefix v) Hoff2).
    by rewrite le_decode_encode_uint64.
  - intros result k.
    rewrite (read_storesBetween a2 p2 pre2 _ (serialize v) [] result k Hst2
               (length_hash_prefix v) Hoff2).
    by rewrite deserialize_serialize.
Qed.

End Codec.

End WithCodec.

End AddressableNonNullValueListMore.

(** ** The distinct-aggregation wrapper: construction, inputs, spilling *)

Module DistinctAggregationsMore.
Import DistinctAggregations DistinctAggregationsFacts.

Section Typed.
Context {Value Alloc Acc Other : Type}.
Context `{!Allocator Alloc} `{!SetAccumulator Value Alloc Acc}.

Abbreviation AggregateInfo := (@AggregateInfo Value Alloc Acc Other).
Abbreviation TypedDistinctAggregations := (@TypedDistinctAggregations Value Alloc Acc Other).
Abbreviation Store := (@Store Alloc Acc Other).
Abbreviation GroupRow := (@GroupRow Acc Other).
Implicit Types (this : TypedDistinctAggregations) (st : Store).

Lemma construct_Ok T (aggregate : AggregateInfo) inputType this :
  construct T [aggregate] inputType = Ok this →
  elementType this = T ∧ aggregates_ this = [aggregate] ∧
  inputs_ this = inputs aggregate ∧
  makeInputTypeForAccumulator inputType (inputs aggregate) = Some (inputType_ this) ∧
  decodedInput_ this = None ∧ inputForAccumulator_ this = None.
Proof.
  unfold construct. simpl.
  destruct (makeInputTypeForAccumulator inputType (inputs aggregate)); [|done].
  intros Hok. by inversion Hok.
Qed.

(** X9. What [create] returns: when it succeeds there was exactly one
    aggregate, with declared inputs, which the object keeps together with
    its inputs; for one declared input the element type is that of the
    column's kind and the input type of the accumulator is the column's
    type; for several, the element type is the complex one and the input
    type is the row of the declared columns, in their order. *)
Theorem create_Ok (aggregates : list AggregateInfo) (inputType : Type_) this :
  create aggregates inputType = Ok this →
  ∃ aggregate,
    aggregates = [aggregate] ∧ inputs aggregate ≠ [] ∧
    aggregates_ this = [aggregate] ∧ inputs_ this = inputs aggregate ∧
    decodedInput_ this = None ∧ inputForAccumulator_ this = None ∧
    (∀ channel,
       inputs aggregate = [channel] →
       childAt inputType channel = Some (inputType_ this) ∧
       specializationBySpec (kind (inputType_ this)) = Some (elementType this)) ∧
    (1 < length (inputs aggregate) →
     elementType this = ComplexType ∧
     ∃ names types,
       mapM (nameOf inputType) (inputs aggregate) = Some names ∧
       mapM (childAt inputType) (inputs aggregate) = Some types ∧
       inputType_ this = ROW_ names types).
Proof.
  unfold create. intros Hok.
  case_decide as Hlen; [|done].
  destruct aggregates as [|aggregate [|? ?]]; try done. simpl in Hok.
  case_decide as Hin; [done|].
  exists aggregate. split; [done|]. split; [done|].
  destruct (bool_decide (length (inputs aggregate) = 1)) eqn:Hsingle; simpl in Hok.
  - apply bool_decide_eq_true in Hsingle.
    destruct (inputs aggregate) as [|channel [|? ?]] eqn:Hinputs; try done.
    simpl in Hok. destruct (childAt inputType channel) as [type|] eqn:Hc; [|done].
    simpl in Hok.
    assert (∃ T, specializationBySpec (kind type) = Some T ∧
                 construct T [aggregate] inputType = Ok this) as (T & HT & Hcons).
    { destruct (kind type); try done; eauto. }
    destruct (construct_Ok T aggregate inputType this Hcons)
      as (HT' & Haggs & Hins & Htype & Hdec & Hfor).
    rewrite Hinputs in Htype, Hins.
    rewrite (makeInputTypeForAccumulator_single _ _ _ Hc) in Htype.
    inversion Htype; subst type.
    split; [done|]. split; [done|]. split; [done|]. split; [done|]. split.
    + intros channel' Heq. inversion Heq; subst. done.
    + simpl. lia.
  - apply bool_decide_eq_false in Hsingle.
    destruct (construct_Ok ComplexType aggregate inputType this Hok)
      as (HT' & Haggs & Hins & Htype & Hdec & Hfor).
    split; [done|]. split; [done|]. split; [done|]. split; [done|]. split.
    + intros channel Heq. rewrite Heq in Hsingle. done.
    + intros _. split; [done|].
      unfold makeInputTypeForAccumulator in Htype.
      rewrite decide_False in Htype by done.
      destruct (mapM (nameOf inputType) (inputs aggregate)) as [names|]; [|done].
      simpl in Htype.
      destruct (mapM (childAt inputType) (inputs aggregate)) as [types|]; [|done].
      simpl in Htype. inversion Htype. eauto.
Qed.

(** X10. The columns taken from a batch for the accumulator come back for
    the wrapped aggregate: what [makeInputForAggregation] makes of the
    vector of [makeInputForAccumulator] are the declared input columns of
    the batch, in their order, for one declared input and for several. *)
Theorem makeInputForAggregation_makeInputForAccumulator this (aggregate : AggregateInfo)
    (input accumulatorInput : Vector Value) :
  aggregates_ this = [aggregate] →
  inputs_ this = inputs aggregate →
  makeInputForAccumulator this input = Some accumulatorInput →
  makeInputForAggregation this accumulatorInput
  = mapM (Vector_childAt input) (inputs aggregate).
Proof.
  intros Haggs Hins. unfold makeInputForAccumulator, makeInputForAggregation,
    isSingleInputAggregate.
  rewrite Haggs, Hins. simpl.
  destruct (bool_decide (length (inputs aggregate) = 1)) eqn:Hsingle.
  - apply bool_decide_eq_true in Hsingle.
    destruct (inputs aggregate) as [|channel [|? ?]]; try done. simpl.
    intros Hchild. by rewrite Hchild.
  - destruct (mapM (Vector_childAt input) (inputs aggregate)) as [newChildren|]; [|done].
    simpl. intros Hrow. by inversion Hrow.
Qed.

(** The loop of [addInput] leaves alone the rows of the groups it is not
    given, and the null flags and the state of the wrapped aggregates of
    every row. *)
Lemma addInput_loop_frame (decoded : DecodedVector (Vector Value)) (groups : list nat)
    (selection : list nat) :
  ∀ st st',
    forEach
      (λ st i,
         group ← groups !! i;
         '(row, acc) ← accumulatorOf st group;
         let '(acc, a) := addValue decoded i (allocator st) acc in
         Some (setRow st group
                 (trackRowSize (setAccumulator row (Some acc)) (allocator st) a) a))
      st selection = Some st' →
    (∀ g, (∀ i, i ∈ selection → groups !! i ≠ Some g) →
          rows st' !! g = rows st !! g) ∧
    (∀ g row', rows st' !! g = Some row' →
       ∃ row, rows st !! g = Some row ∧
              nullFlags row' = nullFlags row ∧ other row' = other row ∧
              (is_Some (accumulator row') ↔ is_Some (accumulator row))).
Proof.
  induction selection as [|i selection IH]; intros st st' Hloop.
  - simpl in Hloop. inversion Hloop; subst. split; [done|]. eauto.
  - cbn [forEach] in Hloop.
    destruct (groups !! i) as [group|] eqn:Hgroup; [|done]. simpl in Hloop.
    destruct (accumulatorOf st group) as [[row acc]|] eqn:Hacc; [|done].
    simpl in Hloop.
    destruct (addValue decoded i (allocator st) acc) as [acc1 a1].
    simpl in Hloop.
    apply accumulatorOf_Some in Hacc as [Hrow Hrowacc].
    destruct (IH _ _ Hloop) as [Hout Hin]. split.
    + intros g Hg. rewrite Hout by (intros k Hk; apply Hg; by right).
      unfold setRow. simpl. rewrite lookup_insert_ne; [done|].
      intros ->. by apply (Hg i); [left|].
    + intros g row' Hrow'. destruct (Hin g row' Hrow') as (row1 & Hrow1 & Hf & Ho & Ha).
      unfold setRow in Hrow1. simpl in Hrow1.
      destruct (decide (group = g)) as [->|Hne].
      * rewrite lookup_insert_eq in Hrow1. inversion Hrow1; subst row1.
        exists row. simpl in *. rewrite Hrowacc.
        split; [done|]. split; [done|]. split; [done|].
        split; [eauto|]. intros _. apply Ha. eauto.
      * rewrite lookup_insert_ne in Hrow1 by done. eauto.
Qed.

(** X11. The frame of [addInput]: it drops the vector it decoded, leaves
    alone every row that is not the group of a selected row, and in every
    row leaves the null flags and the state of the wrapped aggregates as
    they were; it constructs and destroys no accumulator. *)
Theorem addInput_frame this (groups : list nat) (input : Vector Value)
    (rows_ : SelectivityVector) st this' st' :
  addInput this groups input rows_ st = Some (this', st') →
  inputForAccumulator_ this' = None ∧
  (∀ g, (∀ i, i ∈ selected rows_ → groups !! i ≠ Some g) →
        rows st' !! g = rows st !! g) ∧
  (∀ g row', rows st' !! g = Some row' →
     ∃ row, rows st !! g = Some row ∧
            nullFlags row' = nullFlags row ∧ other row' = other row ∧
            (is_Some (accumulator row') ↔ is_Some (accumulator row))).
Proof.
  unfold addInput. intros Hadd.
  destruct (decodeInput this input rows_) as [this1|]; [|done]. simpl in Hadd.
  destruct (decodedInput_ this1) as [decoded|]; [|done]. simpl in Hadd.
  destruct (forEach _ st (selected rows_)) as [st1|] eqn:Hloop; [|done].
  simpl in Hadd. inversion Hadd; subst. split; [done|].
  by apply (addInput_loop_frame decoded groups (selected rows_)).
Qed.

(** The loop of [addInput] over rows of one group adds the values to the
    accumulator of the group one after the other. *)
Lemma addInput_loop_one_group (decoded : DecodedVector (Vector Value)) (groups : list nat)
    (g : nat) (selection : list nat) :
  (∀ i, i ∈ selection → groups !! i = Some g) →
  ∀ st row acc,
    accumulatorOf st g = Some (row, acc) →
    ∃ st' row',
      forEach
        (λ st i,
           group ← groups !! i;
           '(row, acc) ← accumulatorOf st group;
           let '(acc, a) := addValue decoded i (allocator st) acc in
           Some (setRow st group
                   (trackRowSize (setAccumulator row (Some acc)) (allocator st) a) a))
        st selection = Some st' ∧
      accumulatorOf st' g
        = Some (row', (foldl (λ '(acc, a) i, addValue decoded i a acc)
                             (acc, allocator st) selection).1) ∧
      allocator st'
        = (foldl (λ '(acc, a) i, addValue decoded i a acc)
                 (acc, allocator st) selection).2 ∧
      (∀ g', g' ≠ g → rows st' !! g' = rows st !! g').
Proof.
  induction selection as [|i selection IH]; intros Hgroups st row acc Hacc.
  - exists st, row. done.
  - cbn [forEach foldl].
    rewrite (Hgroups i) by (by left). simpl. rewrite Hacc. simpl.
    destruct (addValue decoded i (allocator st) acc) as [acc1 a1] eqn:Hadd.
    simpl.
    set (row1 := trackRowSize (setAccumulator row (Some acc1)) (allocator st) a1).
    destruct (IH (λ k Hk, Hgroups k (list_elem_of_further _ _ _ Hk))
                 (setRow st g row1 a1) row1 acc1)
      as (st' & row' & Hloop & Hacc' & Halloc & Hother).
    { apply accumulatorOf_Some. unfold setRow. simpl.
      by rewrite lookup_insert_eq. }
    exists st', row'. simpl in *. split; [done|]. split; [done|]. split; [done|].
    intros g' Hne. rewrite Hother by done. by rewrite lookup_insert_ne.
Qed.

(** X12. [addInput] with all its selected rows in one group does to the
    accumulator of the group and to the allocator what
    [addSingleGroupInput] does, and neither touches another row. *)
Theorem addInput_one_group this (groups : list nat) (g : nat) (input : Vector Value)
    (rows_ : SelectivityVector) st :
  (∀ i, i ∈ selected rows_ → groups !! i = Some g) →
  is_Some (accumulatorOf st g) →
  is_Some (makeInputForAccumulator this input) →
  ∃ this' st1 st2 row1 row2 acc,
    addInput this groups input rows_ st = Some (this', st1) ∧
    addSingleGroupInput this g input rows_ st = Some (this', st2) ∧
    accumulatorOf st1 g = Some (row1, acc) ∧
    accumulatorOf st2 g = Some (row2, acc) ∧
    allocator st1 = allocator st2 ∧
    (∀ g', g' ≠ g → rows st1 !! g' = rows st !! g' ∧ rows st2 !! g' = rows st !! g').
Proof.
  intros Hgroups [[row acc] Hacc] [v Hv].
  unfold addInput, addSingleGroupInput, decodeInput. rewrite Hv. simpl.
  destruct (addInput_loop_one_group (decode v rows_) groups g (selected rows_)
              Hgroups st row acc Hacc)
    as (st1 & row1 & Hloop & Hacc1 & Halloc & Hother).
  rewrite Hloop, Hacc. simpl.
  destruct (foldl _ (acc, allocator st) (selected rows_)) as [acc2 a2] eqn:Hfold.
  simpl in *.
  eexists _, st1, _, row1, _, acc2. split; [reflexivity|]. split; [reflexivity|].
  split; [done|]. split.
  - apply accumulatorOf_Some. unfold setRow. simpl. by rewrite lookup_insert_eq.
  - split; [done|]. intros g' Hne. split; [by apply Hother|].
    unfold setRow. simpl. by rewrite lookup_insert_ne.
Qed.

Lemma maxSpillSizes_of_groups st (groups : list nat) accumulators :
  mapM (λ group, snd <$> accumulatorOf st group) groups = Some accumulators →
  maxSpillSize <$> accumulators = maxSpillSizeOf st <$> groups.
Proof.
  intros Hm. apply mapM_Some in Hm.
  induction Hm as [|g acc groups accumulators Hg _ IH]; [done|].
  rewrite !fmap_cons, IH. f_equal. unfold maxSpillSizeOf.
  destruct (accumulatorOf st g) as [[row acc']|]; [|done].
  simpl in *. by inversion Hg.
Qed.

(** The second loop of [extractForSpill] does not write past the buffer. *)
Lemma spillGroups_offset (totalBytes : nat) (gs : list nat) :
  ∀ offset rawBuffer st offset' rawBuffer' st',
    offset ≤ totalBytes →
    forEach (spillGroup totalBytes) (offset, rawBuffer, st) gs
      = Some (offset', rawBuffer', st') →
    offset' ≤ totalBytes.
Proof.
  induction gs as [|g gs IH]; intros offset rawBuffer st offset' rawBuffer' st' Hle Hloop.
  - simpl in Hloop. inversion Hloop; by subst.
  - cbn [forEach] in Hloop.
    destruct (spillGroup totalBytes (offset, rawBuffer, st) g)
      as [[[offset1 rawBuffer1] st1]|] eqn:Hstep; [|done].
    simpl in Hloop. eapply IH; [|exact Hloop].
    unfold spillGroup in Hstep.
    destruct (accumulatorOf st g) as [[row acc]|]; [|done]. simpl in Hstep.
    case_decide; [|done]. destruct (clear (allocator st) acc).
    inversion Hstep; subst. lia.
Qed.

(** X13. The column [extractForSpill] produces while the sizes taken
    together stay below 2^31, within the range of the running offset, a
    [vector_size_t]: one cell per group, whose size is [maxSpillSize] of
    the group's accumulator and whose offset is the sum of the sizes of the
    cells before it, whatever the accumulators write; and an elements
    vector of one string, no longer than the sizes taken together. *)
Theorem extractForSpill_cells this (groups : list nat) result st column st' :
  (Z.of_nat (foldr Nat.add 0%nat (maxSpillSizeOf st <$> groups)) < 2 ^ 31)%Z →
  extractForSpill this groups result st = Some (column, st') →
  ∃ spilled,
    column = ArrayVector (offsetsFrom 0 (maxSpillSizeOf st <$> groups))
                         (maxSpillSizeOf st <$> groups)
                         (FlatVectorOfStringView [spilled]) ∧
    length spilled ≤ foldr Nat.add 0 (maxSpillSizeOf st <$> groups).
Proof.
  unfold extractForSpill. intros _ Hex.
  destruct result as [| | |? ? elements]; try done.
  destruct elements; try done.
  destruct (mapM _ groups) as [accumulators|] eqn:Hm; [|done]. simpl in Hex.
  destruct (forEach _ _ groups) as [[[offset rawBuffer] st1]|] eqn:Hloop; [|done].
  simpl in Hex. inversion Hex; subst.
  rewrite (maxSpillSizes_of_groups st groups accumulators Hm) in *.
  eexists. split; [reflexivity|].
  apply spillGroups_offset in Hloop; [|lia].
  rewrite length_take. lia.
Qed.


(** The inner loop of [extractValues] changes no accumulator when the
    wrapped function does not. *)
Lemma addDistinctInputs_keeps this (aggregate : AggregateInfo) (groups : list nat) :
  keepsAccumulators (function aggregate) →
  ∀ st st',
    forEach (addDistinctInputs this aggregate) st groups = Some st' →
    ∀ g : nat, accumulator <$> rows st' !! g = accumulator <$> rows st !! g.
Proof.
  intros [Hadd _]. induction groups as [|group groups IH]; intros st st' Hloop g.
  - simpl in Hloop. by inversion Hloop.
  - cbn [forEach] in Hloop.
    destruct (addDistinctInputs this aggregate st group) as [st1|] eqn:Hstep; [|done].
    simpl in Hloop. rewrite (IH _ _ Hloop g).
    unfold addDistinctInputs in Hstep.
    destruct (accumulatorOf st group) as [[row acc]|]; [|done]. simpl in Hstep.
    destruct (makeInputForAggregation this _) as [args|]; [|done].
    simpl in Hstep. inversion Hstep; subst. apply Hadd.
Qed.

(** X15. [extractValues] reads the uniqueness sets and leaves them as they
    are: with wrapped aggregate functions that keep to their own state, no
    accumulator is changed, constructed or destroyed, so the groups can take
    further input or be spilled; and the result keeps its size and its
    number of columns. *)
Theorem extractValues_keeps_accumulators this (groups : list nat)
    (result : Vector Value) st result' st' :
  (∀ aggregate, aggregate ∈ aggregates_ this → keepsAccumulators (function aggregate)) →
  extractValues this groups result st = Some (result', st') →
  (∀ g : nat, accumulator <$> rows st' !! g = accumulator <$> rows st !! g) ∧
  (∀ g : nat, accumulatorOf st g = None ↔ accumulatorOf st' g = None) ∧
  (aggregates_ this ≠ [] →
   ∃ size children children',
     result = RowVector size children ∧ result' = RowVector size children' ∧
     length children' = length children).
Proof.
  unfold extractValues. intros Hkeeps Hex.
  assert ((∀ g : nat, accumulator <$> rows st' !! g = accumulator <$> rows st !! g) ∧
          (aggregates_ this ≠ [] →
           ∃ size children children',
             result = RowVector size children ∧ result' = RowVector size children' ∧
             length children' = length children)) as [Hacc Hres].
  { revert result st Hex.
    induction (aggregates_ this) as [|aggregate aggregates IH]; intros result st Hex.
    - simpl in Hex. inversion Hex; subst. done.
    - cbn [forEach] in Hex.
      destruct (forEach (addDistinctInputs this aggregate) st groups) as [st1|] eqn:Hloop;
        [|done].
      cbn [mbind option_bind] in Hex.
      destruct result as [| |size children|]; try done.
      destruct (children !! output aggregate) as [child|] eqn:Hchild; [|done].
      cbn [mbind option_bind] in Hex.
      destruct (IH (λ a Ha, Hkeeps a (list_elem_of_further _ _ _ Ha)) _ _ Hex)
        as [Hacc Hres].
      destruct (Hkeeps aggregate) as [Hadd Hdestroy]; [by left|].
      split.
      + intros g. rewrite Hacc, Hdestroy.
        eapply addDistinctInputs_keeps; [|exact Hloop]. by apply Hkeeps; left.
      + intros _. destruct aggregates as [|aggregate2 aggregates].
        * simpl in Hex. inversion Hex; subst.
          eexists _, _, _. split; [done|]. split; [done|]. by rewrite length_insert.
        * destruct Hres as (size' & children1 & children' & Heq & -> & Hlen); [done|].
          inversion Heq; subst.
          eexists _, _, _. split; [done|]. split; [done|].
          by rewrite Hlen, length_insert. }
  split; [done|]. split; [|done].
  intros g. unfold accumulatorOf. specialize (Hacc g).
  destruct (rows st !! g) as [row|], (rows st' !! g) as [row'|]; simpl in *; try done.
  inversion Hacc as [Heq]. rewrite Heq.
  by destruct (accumulator row).
Qed.

End Typed.

End DistinctAggregationsMore.

(** ** The further properties on the instances *)

Module MoreScenarios.
Import Bytes ContainerRowSerde Fixtures.
Import AddressableNonNullValueList AddressableNonNullValueListFacts.
Import AddressableNonNullValueListMore Scenarios.

Lemma twoRecords_valid : valid twoRecords.1 twoRecords.2.
Proof. eexists. split; [reflexivity|]. split; [done|reflexivity]. Qed.

Lemma oneRecord_valid : valid oneRecord.1 oneRecord.2.
Proof. eexists. split; [reflexivity|]. split; [done|reflexivity]. Qed.


Lemma tinyint_compare_one_value (type : Type_) flags (v w : byte) restV restW :
  compare (serialize v ++ restV) (serialize w ++ restW) type flags
  = compare (serialize v) (serialize w) type flags.
Proof. reflexivity. Qed.

Lemma readHash_stable_witness :
  (∀ buffer p l' a',
     appendSerialized twoRecords.1 twoRecords.2 buffer = Some (p, l', a') →
     readHash a' firstRecord = Some 5%N) ∧
  (∀ Value VType (codec : ValueCodec Value VType)
     (decoded : DecodedVector (list Value)) index p l' a',
     append twoRecords.1 decoded index twoRecords.2 = Some (p, l', a') →
     readHash a' firstRecord = Some 5%N).
Proof.
  apply (readHash_stable twoRecords.1 twoRecords.2 firstRecord 5%N).
  - exact twoRecords_valid.
  - by vm_compute.
  - by vm_compute.
Defined.

Lemma appendSerialized_readback_witness :
  ∃ p l' a',
    appendSerialized fourRecords.1 fourRecords.2 (le_encode sizeof_uint64 11 ++ [x0b])
      = Some (p, l', a') ∧
    readHash a' p = Some (le_decode (le_encode sizeof_uint64 11)) ∧
    ∀ (result : list byte) k,
      read a' p result k = v ← deserialize [x0b]; Some (<[k := v]> result).
Proof.
  apply (appendSerialized_readback (Value := byte) (VType := Type_)
           fourRecords.1 fourRecords.2 (le_encode sizeof_uint64 11) [x0b]).
  - exact fourRecords_valid.
  - reflexivity.
  - intros _. by vm_compute.
Defined.

Lemma getSerializedSize_after_appendSerialized_witness :
  ∃ p l' a' n copied,
    appendSerialized fourRecords.1 fourRecords.2 (recordOf x0b) = Some (p, l', a') ∧
    getSerializedSize a' p = Some n ∧
    HSA.offset p + length (recordOf x0b) ≤ n ∧
    length copied = n ∧
    take (length (recordOf x0b)) (drop (HSA.offset p) copied) = recordOf x0b ∧
    ∀ destination capacity,
      (capacity < n →
       copySerializedTo a' p destination capacity = Some VeloxRuntimeError) ∧
      (n ≤ capacity →
       copySerializedTo a' p destination capacity
       = Some (Ok (n, copied ++ drop n destination))).
Proof.
  apply (getSerializedSize_after_appendSerialized fourRecords.1 fourRecords.2 (recordOf x0b)).
  - exact fourRecords_valid.
  - intros _. by vm_compute.
Defined.


Lemma read_stable_witness :
  read twoRecords.2 firstRecord [x00] 0 = Some (<[0 := x05]> [x00]).
Proof.
  apply (read_stable tinyint_deserialize_serialize oneRecord.1 oneRecord.2 firstRecord x05
           (recordOf x07) secondRecord twoRecords.1 twoRecords.2 [x00] 0).
  - eexists. split; [reflexivity|]. split; [done|reflexivity].
  - exists [], []. split; reflexivity.
  - by vm_compute.
  - by vm_compute.
Defined.

Lemma equalTo_appended_witness :
  ∃ equal,
    equalTo twoRecords.2 firstRecord secondRecord tinyint = Some equal ∧
    (equal = true ↔ sameValue tinyint x05 x07).
Proof.
  apply (equalTo_appended tinyint_compare_one_value empty freshAllocator
           (tinyints [x05; x07]) 0 1 0 1 x05 x07 tinyint
           firstRecord oneRecord.1 oneRecord.2 secondRecord twoRecords.1 twoRecords.2);
    try reflexivity; by vm_compute.
Defined.

(** The record of 7, appended after the record of 5, lies at offset 9 of
    what [copySerializedTo] copies. *)
Lemma relocate_record_witness :
  ∃ p l1 a1 n,
    append oneRecord.1 (tinyints [x05; x07]) 1 oneRecord.2 = Some (p, l1, a1) ∧
    getSerializedSize a1 p = Some n ∧
    ∀ destination capacity,
      n ≤ capacity →
      ∃ copy,
        copySerializedTo a1 p destination capacity = Some (Ok (n, copy)) ∧
        take (length (recordOf x07)) (drop (HSA.offset p) copy) = recordOf x07 ∧
        ∀ l2,
          valid l2 a1 →
          (is_Some (firstHeader_ l2) →
           (Z.of_nat (HSA.offset (currentPosition_ l2)) < 2 ^ 31)%Z) →
          ∃ p2 l2' a2,
            appendSerialized l2 a1
              (take (length (recordOf x07)) (drop (HSA.offset p) copy))
              = Some (p2, l2', a2) ∧
            readHash a2 p2 = Some (hashValueAt x07) ∧
            ∀ (result : list byte) k,
              read a2 p2 result k = Some (<[k := x07]> result).
Proof.
  apply (relocate_record tinyint_deserialize_serialize oneRecord.1 oneRecord.2
           (tinyints [x05; x07]) 1 1 x07).
  - exact oneRecord_valid.
  - intros _. by vm_compute.
  - reflexivity.
  - reflexivity.
  - apply tinyint_hash_is_uint64.
Defined.

Lemma copySerializedTo_contract_witness :
  (copySerializedTo twoRecords.2 secondRecord (replicate 20 xff) 20
     = Some VeloxRuntimeError ↔ 20 < 18) ∧
  (18 ≤ 20 →
   ∃ copied,
     length copied = 18 ∧
     copySerializedTo twoRecords.2 secondRecord (replicate 20 xff) 20
     = Some (Ok (18, copied ++ drop 18 (replicate 20 xff)))).
Proof.
  apply (proj1 (copySerializedTo_contract twoRecords.2 secondRecord (replicate 20 xff) 20) 18).
  reflexivity.
Defined.

Import DistinctAggregations DistinctAggregationsFacts DistinctAggregationsMore.

Lemma create_Ok_witness :
  ∃ aggregate,
    [countInfo] = [aggregate] ∧ inputs aggregate ≠ [] ∧
    aggregates_ createdCountDistinct = [aggregate] ∧
    inputs_ createdCountDistinct = inputs aggregate ∧
    decodedInput_ createdCountDistinct = None ∧
    inputForAccumulator_ createdCountDistinct = None ∧
    (∀ channel,
       inputs aggregate = [channel] →
       childAt inputType channel = Some (inputType_ createdCountDistinct) ∧
       specializationBySpec (kind (inputType_ createdCountDistinct))
       = Some (elementType createdCountDistinct)) ∧
    (1 < length (inputs aggregate) →
     elementType createdCountDistinct = ComplexType ∧
     ∃ names types,
       mapM (nameOf inputType) (inputs aggregate) = Some names ∧
       mapM (childAt inputType) (inputs aggregate) = Some types ∧
       inputType_ createdCountDistinct = ROW_ names types).
Proof.
  apply (create_Ok [countInfo] inputType createdCountDistinct). reflexivity.
Defined.

Lemma makeInputForAggregation_makeInputForAccumulator_witness :
  makeInputForAggregation countDistinct
    (FlatVector [Some 5; Some 5; Some 7; Some 5; Some 7]%Z)
  = mapM (Vector_childAt batch) (inputs countInfo).
Proof.
  apply (makeInputForAggregation_makeInputForAccumulator countDistinct countInfo batch);
    reflexivity.
Defined.

(** A batch of two rows, both of the group A. *)
Lemma addInput_frame_witness :
  ∃ this' st',
    addInput countDistinct [100; 100] (RowVector 2 [FlatVector [Some 5; Some 9]%Z])
      [true; true] fedStore = Some (this', st') ∧
    inputForAccumulator_ this' = None ∧
    rows st' !! 200 = rows fedStore !! 200.
Proof.
  destruct (addInput countDistinct [100; 100] (RowVector 2 [FlatVector [Some 5; Some 9]%Z])
              [true; true] fedStore) as [[this' st']|] eqn:Hadd;
    [|by vm_compute in Hadd].
  exists this', st'. split; [done|].
  destruct (addInput_frame countDistinct [100; 100] _ [true; true] fedStore this' st' Hadd)
    as (Hfor & Hout & _).
  split; [done|]. apply Hout.
  intros i Hi. vm_compute in Hi.
  apply elem_of_cons in Hi as [->|Hi]; [done|].
  apply list_elem_of_singleton in Hi as ->. done.
Defined.

Lemma selected_two (i : nat) :
  i ∈ selected [true; true] → [100; 100] !! i = Some 100.
Proof.
  intros Hi. vm_compute in Hi.
  apply elem_of_cons in Hi as [->|Hi]; [done|].
  by apply list_elem_of_singleton in Hi as ->.
Qed.

Lemma addInput_one_group_witness :
  ∃ this' st1 st2 row1 row2 acc,
    addInput countDistinct [100; 100] (RowVector 2 [FlatVector [Some 5; Some 9]%Z])
      [true; true] fedStore = Some (this', st1) ∧
    addSingleGroupInput countDistinct 100 (RowVector 2 [FlatVector [Some 5; Some 9]%Z])
      [true; true] fedStore = Some (this', st2) ∧
    accumulatorOf st1 100 = Some (row1, acc) ∧
    accumulatorOf st2 100 = Some (row2, acc) ∧
    allocator st1 = allocator st2 ∧
    (∀ g', g' ≠ 100 →
       rows st1 !! g' = rows fedStore !! g' ∧ rows st2 !! g' = rows fedStore !! g').
Proof.
  apply (addInput_one_group countDistinct [100; 100] 100
           (RowVector 2 [FlatVector [Some 5; Some 9]%Z]) [true; true] fedStore).
  - exact selected_two.
  - by eexists.
  - by eexists.
Defined.

Lemma extractForSpill_cells_witness :
  ∃ column st' spilled,
    extractForSpill countDistinct [100; 200] emptySpillColumn fedStore
      = Some (column, st') ∧
    column = ArrayVector (offsetsFrom 0 (maxSpillSizeOf fedStore <$> [100; 200]))
                         (maxSpillSizeOf fedStore <$> [100; 200])
                         (FlatVectorOfStringView [spilled]) ∧
    length spilled ≤ foldr Nat.add 0 (maxSpillSizeOf fedStore <$> [100; 200]).
Proof.
  destruct (extractForSpill countDistinct [100; 200] emptySpillColumn fedStore)
    as [[column st']|] eqn:Hex; [|by vm_compute in Hex].
  assert (Z.lt (Z.of_nat (foldr Nat.add 0 (maxSpillSizeOf fedStore <$> [100; 200])))
               (2 ^ 31)%Z) as Hrange by (by vm_compute).
  destruct (extractForSpill_cells countDistinct [100; 200] emptySpillColumn fedStore
              column st' Hrange Hex) as (spilled & Hcolumn & Hlen).
  by exists column, st', spilled.
Defined.


Lemma countAggregate_keepsAccumulators : keepsAccumulators countAggregate.
Proof.
  split.
  - intros group selection args mayPushdown st g. simpl.
    rewrite lookup_alter. case_decide; [subst|done].
    by destruct (rows st !! g).
  - done.
Qed.

Lemma extractValues_keeps_accumulators_witness :
  ∃ result' st',
    extractValues countDistinct [100; 200] (RowVector 2 [FlatVector [None; None]]) fedStore
      = Some (result', st') ∧
    (∀ g : nat, accumulator <$> rows st' !! g = accumulator <$> rows fedStore !! g).
Proof.
  destruct (extractValues countDistinct [100; 200] (RowVector 2 [FlatVector [None; None]])
              fedStore) as [[result' st']|] eqn:Hex; [|by vm_compute in Hex].
  exists result', st'. split; [done|].
  apply (extractValues_keeps_accumulators countDistinct [100; 200]
           (RowVector 2 [FlatVector [None; None]]) fedStore result' st');
    [|done].
  intros aggregate Hin. apply list_elem_of_singleton in Hin as ->.
  exact countAggregate_keepsAccumulators.
Defined.

End MoreScenarios.
